(** * petri: the environment of a population of digital organisms

    A shallow embedding of [env.go]: the toroidal grid, the authoritative
    store ([cells] and [liveCells]), the random samplers, the worker loop
    [process] and the coordinator [Run], followed by the properties the
    specification states about them.

    Go's [int32] and [int64] are integers of [Z] with the wrap-around written
    out; a slice is a [list] read and written by index, the faulting index
    made explicit; [map[int32]bool] is a [gmap Z bool]; a [nil] cell pointer is
    [None]; a run-time panic is the outer [None] of a result. *)

From stdpp Require Import gmap list fin_maps numbers.

Local Open Scope Z_scope.

(** ** Machine integers *)

Definition wrap (bits : Z) (z : Z) : Z :=
  (z + 2 ^ (bits - 1)) `mod` 2 ^ bits - 2 ^ (bits - 1).

Definition wrap32 : Z → Z := wrap 32.
Definition wrap64 : Z → Z := wrap 64.

Definition int32_range (z : Z) : Prop := - 2 ^ 31 ≤ z < 2 ^ 31.

(** [s[i]] on a slice: faults (here [None]) outside [0, len s). *)
Definition index {A} (s : list A) (i : Z) : option A :=
  if decide (0 ≤ i) then s !! Z.to_nat i else None.

(** ** The collaborators

    [cell.go], [ctx.go] and [rng.go] are not part of the sources at hand: the
    cell type with its fields and methods, the worker context and the source
    of randomness are taken as parameters, with the laws the environment
    relies on stated apart. *)

Class CellOps (Cell : Type) := {
  idx : Cell → Z;                      (* c.idx *)
  X : Cell → Z;                        (* c.X *)
  Y : Cell → Z;                        (* c.Y *)
  live : Cell → bool;                  (* c.live() *)
  clone : Cell → Cell;                 (* c.clone() *)
  newCell : Z → Z → Z → Z → Cell;      (* newCell(idx, x, y, genomeSize) *)
}.

Class CellLaws (Cell : Type) `{CellOps Cell} := {
  clone_live : ∀ c, live (clone c) = live c;
  clone_idx : ∀ c, idx (clone c) = idx c;
  newCell_idx : ∀ i x y g, idx (newCell i x y g) = i;
  newCell_dead : ∀ i x y g, live (newCell i x y g) = false;
}.

(** [ctx.rand]: a stateful generator, its state threaded through the calls. *)
Class RNG (R : Type) := {
  Int31n : Z → R → Z * R;              (* ctx.rand.Int31n(n) *)
  Intn : Z → R → Z * R;                (* ctx.rand.Intn(n) *)
}.

Class RNGLaws (R : Type) `{RNG R} := {
  Int31n_range : ∀ n r, 0 < n → 0 ≤ (Int31n n r).1 < n;
  Intn_range : ∀ n r, 0 < n → 0 ≤ (Intn n r).1 < n;
}.

(** ** Data model *)

Record Config := {
  InflowFrequency : Z;
  ViableCellGeneration : Z;
  FailedKillPenalty : Z;
  SeedLiveCells : bool;
}.

Definition DIR_LEFT : Z := 0.
Definition DIR_RIGHT : Z := 1.
Definition DIR_UP : Z := 2.
Definition DIR_DOWN : Z := 3.

Definition defaultConfig : Config :=
  {| InflowFrequency := 10;
     ViableCellGeneration := 3;
     FailedKillPenalty := 3;
     SeedLiveCells := false |}.

Section Environment.
Context {Cell : Type} `{CellOps Cell}.

(** A Delta is read only through [dt.Cells]. *)
Record Delta := { Cells : list Cell }.

(** The fields of [Env] that hold data. The mutex, the generator slot and the
    two channels [run] and [nextCellID] belong to the running system below. *)
Record Env := {
  Width : Z;
  Height : Z;
  GenomeSize : Z;
  Seed : Z;
  initPop : Z;
  config : Config;
  cells : list Cell;
  cellsBuf : list Z;
  liveCells : gmap Z bool;
}.

Definition set_store (e : Env) (cs : list Cell) (lc : gmap Z bool) : Env :=
  {| Width := Width e; Height := Height e; GenomeSize := GenomeSize e;
     Seed := Seed e; initPop := initPop e; config := config e;
     cells := cs; cellsBuf := cellsBuf e; liveCells := lc |}.

Definition set_cellsBuf (e : Env) (buf : list Z) : Env :=
  {| Width := Width e; Height := Height e; GenomeSize := GenomeSize e;
     Seed := Seed e; initPop := initPop e; config := config e;
     cells := cells e; cellsBuf := buf; liveCells := liveCells e |}.

Definition set_initPop (e : Env) (n : Z) : Env :=
  {| Width := Width e; Height := Height e; GenomeSize := GenomeSize e;
     Seed := Seed e; initPop := n; config := config e;
     cells := cells e; cellsBuf := cellsBuf e; liveCells := liveCells e |}.

Definition GetConfig (e : Env) : Config := config e.

Definition SetConfig (e : Env) (c : Config) : Env :=
  {| Width := Width e; Height := Height e; GenomeSize := GenomeSize e;
     Seed := Seed e; initPop := initPop e; config := c;
     cells := cells e; cellsBuf := cellsBuf e; liveCells := liveCells e |}.

(** [NewEnv]: [make] faults on a negative length; [now] stands for
    [time.Now().UnixNano()]. [%] and [/] of Go truncate towards zero. *)
Definition NewEnv (now : Z) (width height genomeSize pop seed : Z) : option Env :=
  let n := wrap32 (width * height) in
  if decide (0 ≤ n) then
    Some {| Width := width; Height := height; GenomeSize := genomeSize;
            Seed := if decide (seed < 1) then now else seed;
            initPop := pop;
            config := defaultConfig;
            cells := (λ i, newCell i (Z.rem i width) (Z.quot i width) genomeSize)
                       <$> seqZ 0 n;
            cellsBuf := replicate (Z.to_nat n) 0;
            liveCells := ∅ |}
  else None.

(** One round of the loop of [applyDelta]. *)
Definition applyCell (e : Env) (c : Cell) : option Env :=
  let lc := if live c then <[idx c := true]> (liveCells e)
            else delete (idx c) (liveCells e) in
  if decide (0 ≤ idx c < Z.of_nat (length (cells e))) then
    Some (set_store e (<[Z.to_nat (idx c) := clone c]> (cells e)) lc)
  else None.

Fixpoint applyCells (cs : list Cell) (e : Env) : option Env :=
  match cs with
  | [] => Some e
  | c :: cs' =>
      match applyCell e c with
      | Some e' => applyCells cs' e'
      | None => None
      end
  end.

Definition applyDelta (e : Env) (dt : Delta) : option Env :=
  applyCells (Cells dt) e.

Definition GetCell (e : Env) (x y : Z) : option Cell :=
  clone <$> index (cells e) (wrap32 (x + wrap32 (Width e * y))).

(** [getNeighbor]: the coordinates handed to [GetCell]. A [dir] outside the
    four constants falls through the switch. *)
Definition neighbor (e : Env) (x y : Z) (dir : Z) : Z * Z :=
  if decide (dir = DIR_LEFT) then
    (if decide (x = 0) then wrap32 (Width e - 1) else wrap32 (x - 1), y)
  else if decide (dir = DIR_RIGHT) then
    (if decide (x = wrap32 (Width e - 1)) then 0 else wrap32 (x + 1), y)
  else if decide (dir = DIR_UP) then
    (x, if decide (y = 0) then wrap32 (Height e - 1) else wrap32 (y - 1))
  else if decide (dir = DIR_DOWN) then
    (x, if decide (y = wrap32 (Height e - 1)) then 0 else wrap32 (y + 1))
  else (x, y).

Definition getNeighbor (e : Env) (c : Cell) (dir : Z) : option Cell :=
  let '(x, y) := neighbor e (X c) (Y c) dir in GetCell e x y.

End Environment.

Arguments Delta : clear implicits.
Arguments Env : clear implicits.

(** ** Random sampling and the worker's two cases *)

(** [cell.go], [ctx.go] and [vm.go] give the worker's context (of which the
    generator is the part that changes) and the two operations of an
    organism, each from the context (the environment as it is when called,
    and the generator) to a Delta. *)
Class VM (Cell R : Type) := {
  newContext : Env Cell → R;                    (* newContext(e) *)
  seed : Env Cell → R → Cell → Delta Cell * R;  (* c.seed(ctx) *)
  exec : Env Cell → R → Cell → Delta Cell * R;  (* c.exec(ctx) *)
}.

Section Sampler.
Context {Cell R : Type} `{CellOps Cell} `{RNG R} `{!VM Cell R}.

Definition getRandomCell (e : Env Cell) (r : R) : option (Cell * R) :=
  let '(x, r1) := Int31n (Width e) r in
  let '(y, r2) := Int31n (Height e) r1 in
  c ← GetCell e x y; Some (c, r2).

(** [for idx := range e.liveCells { e.cellsBuf[i] = idx; i++ }], the keys in
    the order the run time ranges over them. *)
Fixpoint liveLoop (buf : list Z) (i : nat) (order : list Z) : option (list Z * nat) :=
  match order with
  | [] => Some (buf, i)
  | k :: rest =>
      if decide (i < length buf)%nat then liveLoop (<[i := k]> buf) (S i) rest
      else None
  end.

(** [for _, c := range e.cells { if _, live := e.liveCells[c.idx]; !live {...} }] *)
Fixpoint deadLoop (lc : gmap Z bool) (buf : list Z) (i : nat) (cs : list Cell)
  : option (list Z * nat) :=
  match cs with
  | [] => Some (buf, i)
  | c :: rest =>
      match lc !! idx c with
      | Some _ => deadLoop lc buf i rest
      | None =>
          if decide (i < length buf)%nat then deadLoop lc (<[i := idx c]> buf) (S i) rest
          else None
      end
  end.

(** What follows the enumeration in both samplers. *)
Definition pick (e : Env Cell) (r : R) (filled : option (list Z * nat))
  : option (option Cell * Env Cell * R) :=
  '(buf, i) ← filled;
  let e' := set_cellsBuf e buf in
  if decide (i = 0)%nat then Some (None, e', r)
  else
    let '(k, r') := Intn (Z.of_nat i) r in
    c ← index buf k;
    cell ← index (cells e) c;
    Some (Some (clone cell), e', r').

Definition getRandomLiveCell (order : list Z) (e : Env Cell) (r : R)
  : option (option Cell * Env Cell * R) :=
  pick e r (liveLoop (cellsBuf e) 0 order).

Definition getRandomDeadCell (e : Env Cell) (r : R) : option (option Cell * Env Cell * R) :=
  pick e r (deadLoop (liveCells e) (cellsBuf e) 0 (cells e)).

(** The order of a [range] over the map: any arrangement of its keys. *)
Definition range_order (e : Env Cell) (order : list Z) : Prop :=
  order ≡ₚ (map_to_list (liveCells e)).*1.

#[global] Instance range_order_dec e order : Decision (range_order e order).
Proof. unfold range_order. apply _. Defined.

(** What a worker does with one request. *)
Inductive Outcome :=
  | Forward (dt : Delta Cell)          (* dts <- dt *)
  | Dropped                            (* break *)
  | Redirect.                          (* go func() { inflow <- true }() *)

(** [case <-inflow] *)
Definition process_inflow (e : Env Cell) (r : R) : option (Outcome * Env Cell * R) :=
  if negb (SeedLiveCells (GetConfig e)) then
    '(oc, e1, r1) ← getRandomDeadCell e r;
    match oc with
    | None => Some (Dropped, e1, r1)
    | Some c => let '(dt, r2) := seed e1 r1 c in Some (Forward dt, e1, r2)
    end
  else
    '(c, r1) ← getRandomCell e r;
    let '(dt, r2) := seed e r1 c in Some (Forward dt, e, r2).

(** [case _, ok := <-exec] with [ok] true *)
Definition process_exec (order : list Z) (e : Env Cell) (r : R)
  : option (Outcome * Env Cell * R) :=
  '(oc, e1, r1) ← getRandomLiveCell order e r;
  match oc with
  | Some c => let '(dt, r2) := exec e1 r1 c in Some (Forward dt, e1, r2)
  | None => Some (Redirect, e1, r1)
  end.

End Sampler.

(** ** The running system

    [Run], the [processN] goroutines of [process], the goroutines a starved
    worker starts, and the clients calling [Stop] and [SetConfig] run
    interleaved. A state holds the environment, the point [Run] has reached,
    what each worker is doing and the channels; a label names the goroutine
    that moves and the choice of its [select]. [applyDelta] holds the write
    lock and is one step. A sampling holds the read lock, which keeps
    [applyDelta] out, and is one step too: two workers sampling at once
    would share the scratch buffer [cellsBuf], a race this model leaves out.
    The goroutine that feeds [nextCellID] only serves the organisms'
    operations and is part of [seed] and [exec]. *)

Section System.
Context {Cell R : Type} `{CellOps Cell} `{RNG R} `{!VM Cell R}.

Inductive Chan := ChRun | ChExec | ChInflow | ChDts | ChDeltas.

#[global] Instance Chan_eq_dec : EqDecision Chan.
Proof. solve_decision. Defined.

(** A goroutine of [process]. *)
Inductive Worker :=
  | WSelect                            (* waiting at the select *)
  | WInflow                            (* has received from inflow *)
  | WExec                              (* has received from exec, ok *)
  | WSend (dt : Delta Cell)            (* standing at dts <- dt *)
  | WDone.                             (* returned, wg.Done() has run *)

(** The point [Run] has reached. *)
Inductive Pc :=
  | CSeed                              (* for e.initPop > 0 { inflow <- true; ... } *)
  | CSelect                            (* at the select of the loop *)
  | CTickInflow                        (* tick: standing at inflow <- true *)
  | CTickReset                         (* tick: about to reset inflowTick *)
  | CTickExec                          (* tick: standing at exec <- true *)
  | CForward (dt : Delta Cell)         (* applied dt, standing at deltas <- dt *)
  | CWait                              (* wg.Wait() *)
  | CReturn                            (* running the deferred calls *)
  | CDone.                             (* returned *)

Inductive Deferred := DCloseInflow | DCloseDts | DCloseDeltas | DTickerStop.

Inductive Request := RInflow | RExec.

Record Sys := {
  env : Env Cell;                       (* the environment [e] *)
  pc : Pc;                              (* where [Run] stands *)
  inflowTick : Z;                       (* the countdown [inflowTick] *)
  defers : list Deferred;               (* the deferred calls of [Run], the next to run first *)
  workers : list (Worker * R);          (* the goroutines of [process], each with its context *)
  redirects : nat;                      (* goroutines standing at [inflow <- true] *)
  dts : list (Delta Cell);              (* the buffer of [dts] *)
  dtsCap : nat;                         (* its capacity, [processN] *)
  closed : list Chan;                   (* the channels closed so far, in the order of closing *)
  panicked : bool;                      (* a goroutine has panicked *)
  issued : list Request;                (* history: requests of [Run] a worker has received *)
  sent : list (Delta Cell);             (* history: Deltas the workers have sent on [dts] *)
  applied : list (Delta Cell);          (* history: Deltas given to [applyDelta] *)
  output : list (Delta Cell);           (* history: Deltas delivered on [deltas] *)
}.

Definition set_env (v : Env Cell) (s : Sys) : Sys :=
  {| env := v; pc := pc s; inflowTick := inflowTick s; defers := defers s;
     workers := workers s; redirects := redirects s; dts := dts s;
     dtsCap := dtsCap s; closed := closed s; panicked := panicked s;
     issued := issued s; sent := sent s; applied := applied s;
     output := output s |}.

Definition set_pc (v : Pc) (s : Sys) : Sys :=
  {| env := env s; pc := v; inflowTick := inflowTick s; defers := defers s;
     workers := workers s; redirects := redirects s; dts := dts s;
     dtsCap := dtsCap s; closed := closed s; panicked := panicked s;
     issued := issued s; sent := sent s; applied := applied s;
     output := output s |}.

Definition set_inflowTick (v : Z) (s : Sys) : Sys :=
  {| env := env s; pc := pc s; inflowTick := v; defers := defers s;
     workers := workers s; redirects := redirects s; dts := dts s;
     dtsCap := dtsCap s; closed := closed s; panicked := panicked s;
     issued := issued s; sent := sent s; applied := applied s;
     output := output s |}.

Definition set_defers (v : list Deferred) (s : Sys) : Sys :=
  {| env := env s; pc := pc s; inflowTick := inflowTick s; defers := v;
     workers := workers s; redirects := redirects s; dts := dts s;
     dtsCap := dtsCap s; closed := closed s; panicked := panicked s;
     issued := issued s; sent := sent s; applied := applied s;
     output := output s |}.

Definition set_workers (v : list (Worker * R)) (s : Sys) : Sys :=
  {| env := env s; pc := pc s; inflowTick := inflowTick s;
     defers := defers s; workers := v; redirects := redirects s;
     dts := dts s; dtsCap := dtsCap s; closed := closed s;
     panicked := panicked s; issued := issued s; sent := sent s;
     applied := applied s; output := output s |}.

Definition set_redirects (v : nat) (s : Sys) : Sys :=
  {| env := env s; pc := pc s; inflowTick := inflowTick s;
     defers := defers s; workers := workers s; redirects := v; dts := dts s;
     dtsCap := dtsCap s; closed := closed s; panicked := panicked s;
     issued := issued s; sent := sent s; applied := applied s;
     output := output s |}.

Definition set_dts (v : list (Delta Cell)) (s : Sys) : Sys :=
  {| env := env s; pc := pc s; inflowTick := inflowTick s;
     defers := defers s; workers := workers s; redirects := redirects s;
     dts := v; dtsCap := dtsCap s; closed := closed s;
     panicked := panicked s; issued := issued s; sent := sent s;
     applied := applied s; output := output s |}.

Definition set_closed (v : list Chan) (s : Sys) : Sys :=
  {| env := env s; pc := pc s; inflowTick := inflowTick s;
     defers := defers s; workers := workers s; redirects := redirects s;
     dts := dts s; dtsCap := dtsCap s; closed := v; panicked := panicked s;
     issued := issued s; sent := sent s; applied := applied s;
     output := output s |}.

Definition set_panicked (v : bool) (s : Sys) : Sys :=
  {| env := env s; pc := pc s; inflowTick := inflowTick s;
     defers := defers s; workers := workers s; redirects := redirects s;
     dts := dts s; dtsCap := dtsCap s; closed := closed s; panicked := v;
     issued := issued s; sent := sent s; applied := applied s;
     output := output s |}.

Definition set_issued (v : list Request) (s : Sys) : Sys :=
  {| env := env s; pc := pc s; inflowTick := inflowTick s;
     defers := defers s; workers := workers s; redirects := redirects s;
     dts := dts s; dtsCap := dtsCap s; closed := closed s;
     panicked := panicked s; issued := v; sent := sent s;
     applied := applied s; output := output s |}.

Definition set_sent (v : list (Delta Cell)) (s : Sys) : Sys :=
  {| env := env s; pc := pc s; inflowTick := inflowTick s;
     defers := defers s; workers := workers s; redirects := redirects s;
     dts := dts s; dtsCap := dtsCap s; closed := closed s;
     panicked := panicked s; issued := issued s; sent := v;
     applied := applied s; output := output s |}.

Definition set_applied (v : list (Delta Cell)) (s : Sys) : Sys :=
  {| env := env s; pc := pc s; inflowTick := inflowTick s;
     defers := defers s; workers := workers s; redirects := redirects s;
     dts := dts s; dtsCap := dtsCap s; closed := closed s;
     panicked := panicked s; issued := issued s; sent := sent s;
     applied := v; output := output s |}.

Definition set_output (v : list (Delta Cell)) (s : Sys) : Sys :=
  {| env := env s; pc := pc s; inflowTick := inflowTick s;
     defers := defers s; workers := workers s; redirects := redirects s;
     dts := dts s; dtsCap := dtsCap s; closed := closed s;
     panicked := panicked s; issued := issued s; sent := sent s;
     applied := applied s; output := v |}.
Definition is_closed (c : Chan) (s : Sys) : bool := bool_decide (c ∈ closed s).

Definition panic (s : Sys) : Sys := set_panicked true s.

(** [close(c)]: closing a closed channel panics. *)
Definition close (c : Chan) (s : Sys) : Sys :=
  if is_closed c s then panic s else set_closed (closed s ++ [c]) s.

Definition set_worker (j : nat) (w : Worker) (r : R) (s : Sys) : Sys :=
  set_workers (<[j := (w, r)]> (workers s)) s.

Definition all_done (s : Sys) : bool :=
  forallb (λ wr, match wr.1 with WDone => true | _ => false end) (workers s).

(** A deferred call. Closing [inflow] makes every goroutine standing at
    [inflow <- true] panic. *)
Definition run_deferred (d : Deferred) (s : Sys) : Sys :=
  match d with
  | DTickerStop => s
  | DCloseDeltas => close ChDeltas s
  | DCloseDts => close ChDts s
  | DCloseInflow =>
      let s' := close ChInflow s in
      if decide (0 < redirects s)%nat then panic s' else s'
  end.

Inductive Label :=
  | LStop                              (* a client: e.Stop() *)
  | LSetConfig (c : Config)            (* a client: e.SetConfig(c) *)
  | LSeed (j : nat)                    (* Run, seeding: worker j takes inflow <- true *)
  | LEnterLoop                         (* Run: seeding is over, ticker and countdown set up *)
  | LOnStop                            (* Run, select: <-e.run, closed *)
  | LTick                              (* Run, select: <-ticker.C *)
  | LTickInflow (j : nat)              (* Run, tick: worker j takes inflow <- true *)
  | LTickReset                         (* Run, tick: inflowTick = e.GetConfig().InflowFrequency *)
  | LTickExec (j : nat)                (* Run, tick: worker j takes exec <- true *)
  | LRecvDelta                         (* Run, select: dt := <-dts, then applyDelta *)
  | LForward                           (* Run: deltas <- dt is taken *)
  | LWait                              (* Run: wg.Wait() returns *)
  | LDefer                             (* Run: the next deferred call, or the return *)
  | LIntroduce (j : nat)               (* worker j: the body of case <-inflow *)
  | LAdvance (j : nat) (order : list Z)  (* worker j: the body of case <-exec *)
  | LSend (j : nat)                    (* worker j: dts <- dt goes through *)
  | LRedirected (j : nat)              (* worker j takes inflow <- true of a started goroutine *)
  | LClosedInflow (j : nat)            (* worker j receives from inflow, closed *)
  | LExit (j : nat).                   (* worker j: <-exec, closed; return *)

(** A worker has dealt with its request. *)
Definition finish (j : nat) (res : option (Outcome * Env Cell * R)) (s : Sys) : Sys :=
  match res with
  | None => panic s
  | Some (Forward dt, e', r') => set_worker j (WSend dt) r' (set_env e' s)
  | Some (Dropped, e', r') => set_worker j WSelect r' (set_env e' s)
  | Some (Redirect, e', r') =>
      set_redirects (S (redirects s)) (set_worker j WSelect r' (set_env e' s))
  end.

Definition step (l : Label) (s : Sys) : option Sys :=
  if panicked s then None else
  match l with
  | LStop => Some (close ChRun s)
  | LSetConfig c => Some (set_env (SetConfig (env s) c) s)
  | LSeed j =>
      match pc s, workers s !! j with
      | CSeed, Some (WSelect, r) =>
          if decide (0 < initPop (env s)) then
            Some (set_env (set_initPop (env s) (wrap32 (initPop (env s) - 1)))
                   (set_issued (issued s ++ [RInflow]) (set_worker j WInflow r s)))
          else None
      | _, _ => None
      end
  | LEnterLoop =>
      match pc s with
      | CSeed =>
          if decide (0 < initPop (env s)) then None
          else Some (set_pc CSelect
                      (set_inflowTick (InflowFrequency (GetConfig (env s)))
                        (set_defers (DTickerStop :: defers s) s)))
      | _ => None
      end
  | LOnStop =>
      match pc s with
      | CSelect => if is_closed ChRun s then Some (set_pc CWait (close ChExec s)) else None
      | _ => None
      end
  | LTick =>
      match pc s with
      | CSelect =>
          let t := wrap64 (inflowTick s - 1) in
          Some (set_pc (if decide (t = 0) then CTickInflow else CTickExec)
                 (set_inflowTick t s))
      | _ => None
      end
  | LTickInflow j =>
      match pc s, workers s !! j with
      | CTickInflow, Some (WSelect, r) =>
          Some (set_pc CTickReset
                 (set_issued (issued s ++ [RInflow]) (set_worker j WInflow r s)))
      | _, _ => None
      end
  | LTickReset =>
      match pc s with
      | CTickReset =>
          Some (set_pc CTickExec
                 (set_inflowTick (InflowFrequency (GetConfig (env s))) s))
      | _ => None
      end
  | LTickExec j =>
      match pc s, workers s !! j with
      | CTickExec, Some (WSelect, r) =>
          Some (set_pc CSelect
                 (set_issued (issued s ++ [RExec]) (set_worker j WExec r s)))
      | _, _ => None
      end
  | LRecvDelta =>
      match pc s, dts s with
      | CSelect, dt :: rest =>
          match applyDelta (env s) dt with
          | Some e' =>
              Some (set_pc (CForward dt)
                     (set_applied (applied s ++ [dt]) (set_dts rest (set_env e' s))))
          | None => Some (panic s)
          end
      | _, _ => None
      end
  | LForward =>
      match pc s with
      | CForward dt =>
          if is_closed ChDeltas s then Some (panic s)
          else Some (set_pc CSelect (set_output (output s ++ [dt]) s))
      | _ => None
      end
  | LWait =>
      match pc s with
      | CWait => if all_done s then Some (set_pc CReturn s) else None
      | _ => None
      end
  | LDefer =>
      match pc s, defers s with
      | CReturn, d :: ds => Some (run_deferred d (set_defers ds s))
      | CReturn, [] => Some (set_pc CDone s)
      | _, _ => None
      end
  | LIntroduce j =>
      match workers s !! j with
      | Some (WInflow, r) => Some (finish j (process_inflow (env s) r) s)
      | _ => None
      end
  | LAdvance j order =>
      match workers s !! j with
      | Some (WExec, r) =>
          if decide (range_order (env s) order)
          then Some (finish j (process_exec order (env s) r) s)
          else None
      | _ => None
      end
  | LSend j =>
      match workers s !! j with
      | Some (WSend dt, r) =>
          if is_closed ChDts s then Some (panic s)
          else if decide (length (dts s) < dtsCap s)%nat then
            Some (set_sent (sent s ++ [dt]) (set_dts (dts s ++ [dt]) (set_worker j WSelect r s)))
          else None
      | _ => None
      end
  | LRedirected j =>
      match workers s !! j, redirects s with
      | Some (WSelect, r), S n =>
          if is_closed ChInflow s then None
          else Some (set_redirects n (set_worker j WInflow r s))
      | _, _ => None
      end
  | LClosedInflow j =>
      match workers s !! j with
      | Some (WSelect, r) =>
          if is_closed ChInflow s then Some (set_worker j WInflow r s) else None
      | _ => None
      end
  | LExit j =>
      match workers s !! j with
      | Some (WSelect, r) =>
          if is_closed ChExec s then Some (set_worker j WDone r s) else None
      | _ => None
      end
  end.

(** A schedule run from a state; [None] when a label is not enabled. *)
Fixpoint run_trace (ls : list Label) (s : Sys) : option Sys :=
  match ls with
  | [] => Some s
  | l :: ls' => s' ← step l s; run_trace ls' s'
  end.

(** [Run(processN, tick, deltas)] up to its seeding loop: the channels made,
    the workers started, three closes deferred. A negative [processN] makes
    [make(chan *Delta, processN)] panic. [inflowTick] is declared only after
    the seeding; until then the field holds 0. *)
Definition Run (e : Env Cell) (processN : Z) : option Sys :=
  if decide (processN < 0) then None
  else Some {| env := e; pc := CSeed; inflowTick := 0;
               defers := [DCloseDeltas; DCloseDts; DCloseInflow];
               workers := replicate (Z.to_nat processN) (WSelect, newContext e);
               redirects := 0; dts := []; dtsCap := Z.to_nat processN;
               closed := []; panicked := false;
               issued := []; sent := []; applied := []; output := [] |}.

Definition Reachable (e : Env Cell) (processN : Z) (s : Sys) : Prop :=
  ∃ s0 ls, Run e processN = Some s0 ∧ run_trace ls s0 = Some s.

End System.

Arguments Sys : clear implicits.
Arguments Worker : clear implicits.
Arguments Pc : clear implicits.

(** ** A concrete collaborator *)

Module Model.

(** Modelled from the spec: the cell of [cell.go] (an index derived from its
    position, an alive flag and opaque organism state, cloned by value), the
    generator of [rng.go] (integers in [0, n)) and the two operations of an
    organism of [vm.go] (each yields the Delta of one operation). They
    instantiate the parameters above wherever a statement is tried on a
    concrete grid. *)

Record cell := { c_idx : Z; c_x : Z; c_y : Z; c_alive : bool; c_state : Z }.

Definition birth (c : cell) : cell :=
  {| c_idx := c_idx c; c_x := c_x c; c_y := c_y c; c_alive := true; c_state := 0 |}.

Definition age (c : cell) : cell :=
  {| c_idx := c_idx c; c_x := c_x c; c_y := c_y c; c_alive := c_alive c;
     c_state := c_state c + 1 |}.

#[global] Instance cell_ops : CellOps cell :=
  {| idx := c_idx; X := c_x; Y := c_y; live := c_alive; clone := λ c, c;
     newCell := λ i x y _, {| c_idx := i; c_x := x; c_y := y; c_alive := false;
                              c_state := 0 |} |}.

#[global] Instance cell_laws : CellLaws cell.
Proof. split; reflexivity. Qed.

(** The generator counts: the [k]-th draw below [n] is [k mod n]. *)
#[global] Instance counter_rng : RNG Z :=
  {| Int31n := λ n r, (r `mod` n, r + 1); Intn := λ n r, (r `mod` n, r + 1) |}.

#[global] Instance counter_rng_laws : RNGLaws Z.
Proof. split; intros n r Hn; simpl; apply Z.mod_pos_bound; exact Hn. Qed.

#[global] Instance vm : VM cell Z :=
  {| newContext := λ _, 0;
     seed := λ _ r c, ({| Cells := [birth c] |}, r);
     exec := λ _ r c, ({| Cells := [age c] |}, r) |}.

(** A grid of [w] by [h] dead cells. *)
Definition no_grid : Env cell :=
  {| Width := 0; Height := 0; GenomeSize := 0; Seed := 0; initPop := 0;
     config := defaultConfig; cells := []; cellsBuf := []; liveCells := ∅ |}.

Definition grid (w h pop : Z) : Env cell :=
  default no_grid (NewEnv 1 w h 8 pop 1).

End Model.

(** * Properties *)

(** ** The store: invariants and claims *)

Section StoreProperties.
Context {Cell : Type} `{CellOps Cell}.

(** The membership set is the set of indices whose stored cell is alive. *)
Definition live_inv (e : Env Cell) : Prop :=
  ∀ i : Z, is_Some (liveCells e !! i) ↔
           ∃ c, index (cells e) i = Some c ∧ live c = true.

(** Every cell of a Delta names a slot of the grid. *)
Definition in_grid (e : Env Cell) (dt : Delta Cell) : Prop :=
  Forall (λ c, 0 ≤ idx c < Z.of_nat (length (cells e))) (Cells dt).

(** The environments a program can hold: a fresh one, changed by
    [applyDelta] alone. *)
Inductive Store (now width height genomeSize pop seed : Z) : Env Cell → Prop :=
  | Store_new e :
      NewEnv now width height genomeSize pop seed = Some e →
      Store now width height genomeSize pop seed e
  | Store_apply e dt e' :
      Store now width height genomeSize pop seed e →
      applyDelta e dt = Some e' →
      Store now width height genomeSize pop seed e'.

(** What the samplers rely on: the scratch buffer is as long as the grid,
    every stored cell carries the index of its slot, and the membership
    invariant. *)
Definition store_wf (e : Env Cell) : Prop :=
  length (cellsBuf e) = length (cells e) ∧
  (∀ (i : nat) c, cells e !! i = Some c → idx c = Z.of_nat i) ∧
  live_inv e.

(** The claim that [GetCell] faults on every coordinate pair outside the
    grid. *)
Definition GetCell_faults_outside (e : Env Cell) : Prop :=
  ∀ x y, ¬ (0 ≤ x < Width e ∧ 0 ≤ y < Height e) → GetCell e x y = None.

End StoreProperties.

Section SystemProperties.
Context {Cell R : Type} `{CellOps Cell} `{RNG R} `{!VM Cell R}.

(** The labels at which [Run] itself moves. *)
Definition coord (l : Label) : bool :=
  match l with
  | LSeed _ | LEnterLoop | LOnStop | LTick | LTickInflow _ | LTickReset
  | LTickExec _ | LRecvDelta | LForward | LWait | LDefer => true
  | _ => false
  end.

(** The Deltas of a history applied in turn. *)
Fixpoint replay (ds : list (Delta Cell)) (e : Env Cell) : option (Env Cell) :=
  match ds with
  | [] => Some e
  | dt :: ds' => e' ← applyDelta e dt; replay ds' e'
  end.

(** The path of a Delta: sent on [dts], taken and applied by [Run], then
    delivered on [deltas]. *)
Definition flow_inv (e0 : Env Cell) (s : Sys Cell R) : Prop :=
  sent s = applied s ++ dts s ∧
  match pc s with
  | CForward dt => applied s = output s ++ [dt]
  | _ => applied s = output s
  end ∧
  ∃ e', replay (applied s) e0 = Some e' ∧
        cells e' = cells (env s) ∧ liveCells e' = liveCells (env s).

Definition deferred_at_start : list Deferred :=
  [DCloseDeltas; DCloseDts; DCloseInflow].

(** Where [Run] stands fixes which channels are closed and which deferred
    calls are left. *)
Definition order_inv (s : Sys Cell R) : Prop :=
  match pc s with
  | CSeed =>
      (closed s = [] ∨ closed s = [ChRun]) ∧ defers s = deferred_at_start
  | CSelect | CTickInflow | CTickReset | CTickExec | CForward _ =>
      (closed s = [] ∨ closed s = [ChRun]) ∧
      defers s = DTickerStop :: deferred_at_start
  | CWait =>
      closed s = [ChRun; ChExec] ∧ defers s = DTickerStop :: deferred_at_start
  | CReturn =>
      all_done s = true ∧
      ((closed s = [ChRun; ChExec] ∧ defers s = DTickerStop :: deferred_at_start) ∨
       (closed s = [ChRun; ChExec] ∧ defers s = deferred_at_start) ∨
       (closed s = [ChRun; ChExec; ChDeltas] ∧ defers s = [DCloseDts; DCloseInflow]) ∨
       (closed s = [ChRun; ChExec; ChDeltas; ChDts] ∧ defers s = [DCloseInflow]) ∨
       (closed s = [ChRun; ChExec; ChDeltas; ChDts; ChInflow] ∧ defers s = []))
  | CDone =>
      all_done s = true ∧
      closed s = [ChRun; ChExec; ChDeltas; ChDts; ChInflow] ∧ defers s = []
  end.

(** The claim that a stopped [Run] has drained [dts]: at its return every
    Delta sent by a worker has been applied and delivered, once. *)
Definition drains_on_stop (e : Env Cell) (processN : Z) : Prop :=
  ∀ s, Reachable e processN s → pc s = CDone →
       sent s ≡ₚ output s ∧ sent s ≡ₚ applied s.

(** The claim that [Run] closes, after [exec] and the wait, the Introduce
    source, then the collection channel, then the output sink. *)
Definition closes_inflow_dts_deltas (e : Env Cell) (processN : Z) : Prop :=
  ∀ s, Reachable e processN s → pc s = CDone →
       closed s = [ChRun; ChExec; ChInflow; ChDts; ChDeltas].

End SystemProperties.

Section TickAccounting.
Context {Cell R : Type} `{CellOps Cell} `{RNG R} `{!VM Cell R}.

(** The requests a tick sends: an Introduce request when the countdown,
    decremented, is zero, and an Advance request. *)
Definition tick_requests (countdown : Z) : list Request :=
  if decide (wrap64 (countdown - 1) = 0) then [RInflow; RExec] else [RExec].

(** The requests of a tick under way that [Run] has yet to hand over. *)
Definition owed (s : Sys Cell R) : list Request :=
  match pc s with
  | CTickInflow => [RInflow; RExec]
  | CTickReset | CTickExec => [RExec]
  | _ => []
  end.

(** The requests that the ticks and the seeding of a schedule call for. *)
Fixpoint called_for (ls : list Label) (s : Sys Cell R) : list Request :=
  match ls with
  | [] => []
  | l :: ls' =>
      match step l s with
      | Some s' =>
          match l with
          | LSeed _ => [RInflow]
          | LTick => tick_requests (inflowTick s)
          | _ => []
          end ++ called_for ls' s'
      | None => []
      end
  end.

End TickAccounting.

(** ** Concrete runs

    One worker on a grid of 2 by 2. In [stop_early] the worker serves the one
    Introduce request of the seeding and sends its Delta, then [Stop] is
    called and [Run] takes the stop signal before the Delta. In
    [starved_stop] the worker serves the Advance request of the first tick on
    an empty grid, and [Run] returns while the started goroutine still stands
    at its send. *)

Definition stop_early : list Label :=
  [LSeed 0; LIntroduce 0; LSend 0; LEnterLoop; LStop; LOnStop; LExit 0;
   LWait; LDefer; LDefer; LDefer; LDefer; LDefer]%nat.

Definition starved_stop : list Label :=
  [LEnterLoop; LTick; LTickExec 0; LAdvance 0 []; LStop; LOnStop; LExit 0;
   LWait; LDefer; LDefer; LDefer; LDefer]%nat.

Definition run_on (e : Env Model.cell) (processN : Z) (ls : list Label)
  : option (Sys Model.cell Z) :=
  s0 ← Run e processN; run_trace ls s0.

Definition born (i : nat) (e : Env Model.cell) : Delta Model.cell :=
  {| Cells := Model.birth <$> option_list (cells e !! i) |}.

(** ** Further notions: last writes, walks on the torus, busy workers, ids *)

Section FurtherProperties.
Context {Cell R : Type} `{CellOps Cell} `{RNG R} `{!VM Cell R}.

(** The last cell of a Delta that carries the index [i]. *)
Fixpoint last_at (i : Z) (cs : list Cell) : option Cell :=
  match cs with
  | [] => None
  | c :: cs' =>
      match last_at i cs' with
      | Some c' => Some c'
      | None => if decide (idx c = i) then Some c else None
      end
  end.

(** No index is carried by a cell of both lists. *)
Definition disjoint_cells (cs1 cs2 : list Cell) : Prop :=
  ∀ c1 c2, c1 ∈ cs1 → c2 ∈ cs2 → idx c1 ≠ idx c2.

(** [k] steps of [getNeighbor] in one direction, on coordinates. *)
Fixpoint walk (e : Env Cell) (dir : Z) (k : nat) (p : Z * Z) : Z * Z :=
  match k with
  | O => p
  | S k' => walk e dir k' (neighbor e p.1 p.2 dir)
  end.

(** A worker that holds a request or the Delta made from one. *)
Definition is_busy (w : Worker Cell) : bool :=
  match w with
  | WInflow | WExec | WSend _ => true
  | WSelect | WDone => false
  end.

Definition busy (ws : list (Worker Cell * R)) : nat :=
  length (filter (λ wr, is_busy wr.1 = true) ws).

(** [Run] stands in its seeding loop on the store it was handed: nothing
    applied, no goroutine started, every request handed over held by a
    worker or turned into a Delta in the buffer of [dts]. *)
Definition seeding (e0 : Env Cell) (processN : Z) (s : Sys Cell R) : Prop :=
  pc s = CSeed ∧
  cells (env s) = cells e0 ∧ liveCells (env s) = liveCells e0 ∧
  applied s = [] ∧ output s = [] ∧ redirects s = 0%nat ∧
  (closed s = [] ∨ closed s = [ChRun]) ∧
  Forall (λ wr, wr.1 ≠ WExec) (workers s) ∧
  length (issued s) = (length (dts s) + busy (workers s))%nat ∧
  (length (dts s) ≤ dtsCap s)%nat ∧
  dtsCap s = Z.to_nat processN ∧ length (workers s) = Z.to_nat processN ∧
  initPop (env s) + Z.of_nat (length (issued s)) = initPop e0.

End FurtherProperties.

(** The goroutine of [Run] that feeds [nextCellID]:
    [var id int64 = 1; for { e.nextCellID <- id; id++ }]. Its state is [id];
    [getNextCellID] receives the value it stands to send, after which the
    goroutine increments. *)
Definition first_id : Z := 1.

Definition getNextCellID (id : Z) : Z * Z := (id, wrap64 (id + 1)).

(** [n] calls of [getNextCellID], by whichever workers, in the order the
    goroutine serves them. *)
Fixpoint fetch_ids (n : nat) (id : Z) : list Z * Z :=
  match n with
  | O => ([], id)
  | S n' =>
      let '(v, id') := getNextCellID id in
      let '(vs, id'') := fetch_ids n' id' in
      (v :: vs, id'')
  end.

(** * Proofs *)

(** ** Machine integers and slices *)

Lemma wrap32_id z : int32_range z → wrap32 z = z.
Proof.
  unfold int32_range, wrap32, wrap. intros Hz.
  rewrite Z.mod_small; lia.
Qed.

Lemma index_Some {A} (s : list A) i a :
  index s i = Some a ↔ 0 ≤ i ∧ s !! Z.to_nat i = Some a.
Proof.
  unfold index. destruct (decide (0 ≤ i)) as [Hi|Hi].
  - split; [intros Hs; by split|by intros [_ Hs]].
  - split; [discriminate|intros [Hi' _]; lia].
Qed.

Lemma index_is_Some {A} (s : list A) i :
  is_Some (index s i) ↔ 0 ≤ i < Z.of_nat (length s).
Proof.
  unfold index. case_decide.
  - rewrite lookup_lt_is_Some. lia.
  - split; [intros [? ?]; discriminate | lia].
Qed.

Lemma index_None {A} (s : list A) i :
  index s i = None ↔ ¬ (0 ≤ i < Z.of_nat (length s)).
Proof. rewrite <- index_is_Some, eq_None_not_Some. done. Qed.

(** ** The authoritative store *)

Section Store.
Context {Cell : Type} `{CellOps Cell}.

Lemma applyCell_Some e c e' :
  applyCell e c = Some e' →
  0 ≤ idx c < Z.of_nat (length (cells e)) ∧
  cells e' = <[Z.to_nat (idx c) := clone c]> (cells e) ∧
  liveCells e' = (if live c then <[idx c := true]> (liveCells e)
                  else delete (idx c) (liveCells e)) ∧
  cellsBuf e' = cellsBuf e ∧ config e' = config e ∧ initPop e' = initPop e ∧
  Width e' = Width e ∧ Height e' = Height e.
Proof.
  unfold applyCell. case_decide; [|discriminate].
  intros [= <-]. simpl. done.
Qed.

Lemma applyCells_length cs : ∀ e e',
  applyCells cs e = Some e' → length (cells e') = length (cells e).
Proof.
  induction cs as [|c cs IH]; simpl; intros e e' He.
  - by injection He as <-.
  - destruct (applyCell e c) as [e1|] eqn:Hc; [|discriminate].
    apply applyCell_Some in Hc as (_ & Hcs & _).
    rewrite (IH _ _ He), Hcs. apply length_insert.
Qed.

Lemma applyCells_total cs : ∀ e,
  Forall (λ c, 0 ≤ idx c < Z.of_nat (length (cells e))) cs →
  is_Some (applyCells cs e).
Proof.
  induction cs as [|c cs IH]; simpl; intros e Hcs; [by eexists|].
  inversion Hcs as [|c' cs' Hc Hcs']; subst.
  unfold applyCell. rewrite decide_True by done.
  apply IH. simpl. by rewrite length_insert.
Qed.

Lemma applyCells_frame cs : ∀ e e' (i : Z),
  applyCells cs e = Some e' →
  (∀ c, c ∈ cs → idx c ≠ i) →
  index (cells e') i = index (cells e) i ∧ liveCells e' !! i = liveCells e !! i.
Proof.
  induction cs as [|c cs IH]; simpl; intros e e' i He Hi.
  - by injection He as <-.
  - destruct (applyCell e c) as [e1|] eqn:Hc; [|discriminate].
    apply applyCell_Some in Hc as (Hr & Hcs & Hlc & _).
    assert (idx c ≠ i) as Hne by (apply Hi; left).
    destruct (IH _ _ i He) as [-> ->]; [intros c' Hc'; apply Hi; by right|].
    rewrite Hcs, Hlc. split.
    + unfold index. case_decide; [|done].
      apply list_lookup_insert_ne. lia.
    + destruct (live c); [by rewrite lookup_insert_ne|by rewrite lookup_delete_ne].
Qed.

Context `{!CellLaws Cell}.

Lemma applyCell_live_inv e c e' :
  live_inv e → applyCell e c = Some e' → live_inv e'.
Proof.
  intros Hinv Hc i.
  apply applyCell_Some in Hc as (Hr & Hcs & Hlc & _).
  rewrite Hcs, Hlc. destruct (decide (i = idx c)) as [->|Hne].
  - unfold index. rewrite decide_True by lia.
    rewrite list_lookup_insert_eq by lia.
    destruct (live c) eqn:Hl.
    + rewrite lookup_insert_eq. split; [|by eexists].
      intros _. exists (clone c). by rewrite clone_live.
    + rewrite lookup_delete_eq. split; [intros [? ?]; discriminate|].
      intros (c' & Hc' & Hl'). injection Hc' as <-.
      rewrite clone_live in Hl'. congruence.
  - assert (index (<[Z.to_nat (idx c) := clone c]> (cells e)) i = index (cells e) i) as ->.
    { unfold index. case_decide; [|done]. apply list_lookup_insert_ne. lia. }
    rewrite <- (Hinv i).
    destruct (live c); [by rewrite lookup_insert_ne|by rewrite lookup_delete_ne].
Qed.

Lemma applyDelta_live_inv e dt e' :
  live_inv e → applyDelta e dt = Some e' → live_inv e'.
Proof.
  unfold applyDelta. generalize (Cells dt). intros cs. revert e.
  induction cs as [|c cs IH]; simpl; intros e Hinv He.
  - by injection He as <-.
  - destruct (applyCell e c) as [e1|] eqn:Hc; [|discriminate].
    eapply IH; [|done]. by eapply applyCell_live_inv.
Qed.

Lemma NewEnv_live_inv now w h g pop seed e :
  NewEnv now w h g pop seed = Some e → live_inv e.
Proof.
  unfold NewEnv. case_decide; [|discriminate]. intros [= <-] i. simpl.
  rewrite lookup_empty. split; [intros [? ?]; discriminate|].
  intros (c & Hc & Hl). apply index_Some in Hc as [_ Hc].
  rewrite list_lookup_fmap in Hc.
  destruct (seqZ 0 _ !! _); simpl in Hc; [|discriminate].
  injection Hc as <-. by rewrite newCell_dead in Hl.
Qed.

End Store.

(** ** Well-formed stores *)

Section WellFormed.
Context {Cell : Type} `{CellOps Cell} `{!CellLaws Cell}.

Lemma NewEnv_store_wf now w h g pop seed (e : Env Cell) :
  NewEnv now w h g pop seed = Some e → store_wf e.
Proof.
  intros He. split; [|split; [|by eapply NewEnv_live_inv]].
  - revert He. unfold NewEnv. case_decide; [|discriminate]. intros [= <-]. simpl.
    by rewrite length_replicate, length_fmap, length_seqZ.
  - revert He. unfold NewEnv. case_decide; [|discriminate]. intros [= <-]. simpl.
    intros i c Hc. rewrite list_lookup_fmap in Hc.
    destruct (seqZ 0 _ !! i) as [k|] eqn:Hk; simpl in Hc; [|discriminate].
    injection Hc as <-. apply lookup_seqZ in Hk as [-> _].
    rewrite newCell_idx. lia.
Qed.

Lemma applyCell_store_wf (e : Env Cell) c e' :
  store_wf e → applyCell e c = Some e' → store_wf e'.
Proof.
  intros (Hlen & Hidx & Hinv) Hc.
  split; [|split; [|by eapply applyCell_live_inv]];
    apply applyCell_Some in Hc as (Hr & Hcs & _ & Hbuf & _).
  - by rewrite Hbuf, Hcs, length_insert.
  - intros i c' Hi. rewrite Hcs in Hi.
    destruct (decide (i = Z.to_nat (idx c))) as [->|Hne].
    + rewrite list_lookup_insert_eq in Hi by lia. injection Hi as <-.
      rewrite clone_idx. lia.
    + rewrite list_lookup_insert_ne in Hi by done. by apply Hidx.
Qed.

Lemma applyDelta_store_wf (e : Env Cell) dt e' :
  store_wf e → applyDelta e dt = Some e' → store_wf e'.
Proof.
  unfold applyDelta. generalize (Cells dt). intros cs. revert e.
  induction cs as [|c cs IH]; simpl; intros e Hwf He.
  - by injection He as <-.
  - destruct (applyCell e c) as [e1|] eqn:Hc; [|discriminate].
    eapply IH; [|exact He]. by eapply applyCell_store_wf.
Qed.

Lemma Store_store_wf now w h g pop seed (e : Env Cell) :
  Store now w h g pop seed e → store_wf e.
Proof.
  induction 1 as [e He|e dt e' _ IH He].
  - by eapply NewEnv_store_wf.
  - by eapply applyDelta_store_wf.
Qed.

End WellFormed.

(** ** Grid topology *)

Section Topology.
Context {Cell : Type} `{CellOps Cell}.

Lemma GetCell_in_grid (e : Env Cell) x y :
  Z.of_nat (length (cells e)) = Width e * Height e →
  Width e * Height e < 2 ^ 31 →
  0 ≤ x < Width e → 0 ≤ y < Height e →
  ∃ c, cells e !! Z.to_nat (x + Width e * y) = Some c ∧
       GetCell e x y = Some (clone c).
Proof.
  intros Hlen Hsmall Hx Hy. unfold GetCell.
  assert (0 ≤ Width e * y ∧ x + Width e * y < Width e * Height e) as [Hlo Hhi] by nia.
  rewrite (wrap32_id (Width e * y)) by (unfold int32_range; lia).
  rewrite wrap32_id by (unfold int32_range; lia).
  destruct (index (cells e) (x + Width e * y)) as [c|] eqn:Hc.
  - exists c. apply index_Some in Hc as [_ Hc]. done.
  - apply index_None in Hc. lia.
Qed.

(** C8. On a grid of width and height at least one, the neighbour of an
    in-grid coordinate in each of the four directions is an in-grid
    coordinate: at an edge it wraps to the opposite edge, elsewhere the
    coordinate moves by one; [getNeighbor] reads the cell there and, on a
    grid that holds [Width * Height] cells, returns it. *)
Theorem getNeighbor_in_grid (e : Env Cell) (c : Cell) (dir : Z) :
  1 ≤ Width e < 2 ^ 31 → 1 ≤ Height e < 2 ^ 31 →
  0 ≤ X c < Width e → 0 ≤ Y c < Height e →
  dir ∈ [DIR_LEFT; DIR_RIGHT; DIR_UP; DIR_DOWN] →
  ∃ x' y',
    neighbor e (X c) (Y c) dir = (x', y') ∧
    getNeighbor e c dir = GetCell e x' y' ∧
    0 ≤ x' < Width e ∧ 0 ≤ y' < Height e ∧
    (dir = DIR_LEFT →
       x' = (if decide (X c = 0) then Width e - 1 else X c - 1) ∧ y' = Y c) ∧
    (dir = DIR_RIGHT →
       x' = (if decide (X c = Width e - 1) then 0 else X c + 1) ∧ y' = Y c) ∧
    (dir = DIR_UP →
       x' = X c ∧ y' = (if decide (Y c = 0) then Height e - 1 else Y c - 1)) ∧
    (dir = DIR_DOWN →
       x' = X c ∧ y' = (if decide (Y c = Height e - 1) then 0 else Y c + 1)) ∧
    (Z.of_nat (length (cells e)) = Width e * Height e →
     Width e * Height e < 2 ^ 31 →
     is_Some (getNeighbor e c dir)).
Proof.
  intros HW HH Hx Hy Hdir.
  assert (wrap32 (Width e - 1) = Width e - 1) as HW1
    by (apply wrap32_id; unfold int32_range; lia).
  assert (wrap32 (Height e - 1) = Height e - 1) as HH1
    by (apply wrap32_id; unfold int32_range; lia).
  assert (wrap32 (X c - 1) = X c - 1) as Hxm
    by (apply wrap32_id; unfold int32_range; lia).
  assert (wrap32 (Y c - 1) = Y c - 1) as Hym
    by (apply wrap32_id; unfold int32_range; lia).
  destruct (neighbor e (X c) (Y c) dir) as [x' y'] eqn:Hn.
  assert (0 ≤ x' < Width e ∧ 0 ≤ y' < Height e ∧
    (dir = DIR_LEFT →
       x' = (if decide (X c = 0) then Width e - 1 else X c - 1) ∧ y' = Y c) ∧
    (dir = DIR_RIGHT →
       x' = (if decide (X c = Width e - 1) then 0 else X c + 1) ∧ y' = Y c) ∧
    (dir = DIR_UP →
       x' = X c ∧ y' = (if decide (Y c = 0) then Height e - 1 else Y c - 1)) ∧
    (dir = DIR_DOWN →
       x' = X c ∧ y' = (if decide (Y c = Height e - 1) then 0 else Y c + 1)))
    as (Hx' & Hy' & Hrest).
  { unfold neighbor, DIR_LEFT, DIR_RIGHT, DIR_UP, DIR_DOWN in *.
    rewrite HW1, HH1, Hxm, Hym in Hn.
    repeat (apply elem_of_cons in Hdir as [->|Hdir]); [..|by apply elem_of_nil in Hdir];
      simpl in Hn; repeat case_decide; injection Hn as <- <-;
      rewrite ?wrap32_id by (unfold int32_range; lia);
      repeat split; try lia; intros; try discriminate; repeat case_decide; lia. }
  exists x', y'. split; [done|].
  assert (getNeighbor e c dir = GetCell e x' y') as Hg
    by (unfold getNeighbor; by rewrite Hn).
  repeat split; try tauto; try lia.
  intros Hlen Hsmall. rewrite Hg.
  destruct (GetCell_in_grid e x' y' Hlen Hsmall Hx' Hy') as (c' & _ & ->).
  by eexists.
Qed.

(** C9, as the code has it. [GetCell] checks no coordinate: it faults exactly
    when the linear index [x + Width * y], computed in [int32], falls outside
    the slice of cells, and otherwise returns a copy of the cell stored at
    that index, whatever the coordinates. *)
Theorem GetCell_faults_iff (e : Env Cell) (x y : Z) :
  let i := wrap32 (x + wrap32 (Width e * y)) in
  (GetCell e x y = None ↔ ¬ (0 ≤ i < Z.of_nat (length (cells e)))) ∧
  (∀ c, cells e !! Z.to_nat i = Some c → 0 ≤ i → GetCell e x y = Some (clone c)).
Proof.
  intros i. unfold GetCell. fold i. split.
  - rewrite <- index_None. destruct (index (cells e) i); simpl; naive_solver.
  - intros c Hc Hi. unfold index. rewrite decide_True by done. by rewrite Hc.
Qed.

End Topology.

(** C9, the counterexample: on a grid of 4 by 4 the pair (4, 0) lies outside
    the grid and [GetCell] returns the cell stored at index 4, the one at
    (0, 1). *)
Lemma GetCell_outside_returns : ¬ GetCell_faults_outside (Model.grid 4 4 0).
Proof.
  intros Hclaim. specialize (Hclaim 4 0). simpl in Hclaim.
  assert (GetCell (Model.grid 4 4 0) 4 0 = None) as Hnone by (apply Hclaim; lia).
  vm_compute in Hnone. discriminate.
Qed.

(** ** Applying a Delta *)

Section StoreClaims.
Context {Cell : Type} `{CellOps Cell}.

(** C3. A freshly constructed environment satisfies the membership
    invariant, every [applyDelta] that returns preserves it, so it holds of
    every environment reached from a fresh one by [applyDelta]; and
    [applyDelta] returns whenever every cell of the Delta names a slot of
    the grid. *)
Theorem live_inv_always `{!CellLaws Cell} (now width height genomeSize pop seed : Z) :
  (∀ e, NewEnv now width height genomeSize pop seed = Some e → live_inv e) ∧
  (∀ e dt e', live_inv e → applyDelta e dt = Some e' → live_inv e') ∧
  (∀ e, Store now width height genomeSize pop seed e → live_inv e) ∧
  (∀ e dt, in_grid e dt → is_Some (applyDelta e dt)).
Proof.
  split; [|split; [|split]].
  - intros e He. by eapply NewEnv_live_inv.
  - intros e dt e' Hinv He. by eapply applyDelta_live_inv.
  - induction 1 as [e He|e dt e' _ IH He].
    + by eapply NewEnv_live_inv.
    + by eapply applyDelta_live_inv.
  - intros e dt Hdt. by apply applyCells_total.
Qed.

(** C10. [applyDelta] returns whenever every cell of the Delta names a slot
    of the grid, and when it returns, at every index that no cell of the
    Delta carries the stored cell and the membership are what they were; the
    grid keeps its length. *)
Theorem applyDelta_frame (e : Env Cell) (dt : Delta Cell) :
  (in_grid e dt → is_Some (applyDelta e dt)) ∧
  ∀ e', applyDelta e dt = Some e' →
    length (cells e') = length (cells e) ∧
    ∀ i : Z, (∀ c, c ∈ Cells dt → idx c ≠ i) →
      index (cells e') i = index (cells e) i ∧
      liveCells e' !! i = liveCells e !! i.
Proof.
  split; [apply applyCells_total|].
  intros e' He. split; [by eapply applyCells_length|].
  intros i Hi. by eapply applyCells_frame.
Qed.

End StoreClaims.

Lemma live_inv_always_witness :
  ∃ e, applyDelta (Model.grid 2 2 0) (born 1 (Model.grid 2 2 0)) = Some e ∧ live_inv e.
Proof.
  destruct (live_inv_always (Cell := Model.cell) 1 2 2 8 0 1) as (_ & _ & Hst & Htot).
  destruct (Htot (Model.grid 2 2 0) (born 1 (Model.grid 2 2 0))) as [e He].
  { repeat constructor; vm_compute; congruence. }
  exists e. split; [exact He|].
  apply Hst. eapply Store_apply; [apply Store_new; reflexivity|exact He].
Defined.

Lemma applyDelta_frame_witness :
  ∃ e, applyDelta (Model.grid 2 2 0) (born 1 (Model.grid 2 2 0)) = Some e ∧
       index (cells e) 2 = index (cells (Model.grid 2 2 0)) 2 ∧
       liveCells e !! 2 = liveCells (Model.grid 2 2 0) !! 2.
Proof.
  destruct (applyDelta_frame (Model.grid 2 2 0) (born 1 (Model.grid 2 2 0)))
    as [Htot Hfr].
  destruct Htot as [e He].
  { repeat constructor; vm_compute; congruence. }
  exists e. split; [exact He|].
  apply (Hfr e He). intros c Hc.
  apply (list_elem_of_singleton c) in Hc. subst c. vm_compute. discriminate.
Defined.

Lemma getNeighbor_in_grid_witness :
  ∃ x' y', neighbor (Model.grid 4 4 0) 0 2 DIR_LEFT = (x', y') ∧ x' = 3 ∧ y' = 2.
Proof.
  destruct (getNeighbor_in_grid (Model.grid 4 4 0)
              (newCell (Cell := Model.cell) 8 0 2 8) DIR_LEFT)
    as (x' & y' & Hn & _ & _ & _ & Hl & _).
  - vm_compute. split; [discriminate|reflexivity].
  - vm_compute. split; [discriminate|reflexivity].
  - vm_compute. split; [discriminate|reflexivity].
  - vm_compute. split; [discriminate|reflexivity].
  - left.
  - exists x', y'. split; [exact Hn|]. destruct (Hl eq_refl) as [-> ->]. split; reflexivity.
Defined.

(** ** The samplers *)

Section SamplerFacts.
Context {Cell R : Type} `{CellOps Cell} `{RNG R} `{!VM Cell R}.

Lemma liveLoop_Some order : ∀ buf i buf' n,
  liveLoop buf i order = Some (buf', n) →
  n = (i + length order)%nat ∧ length buf' = length buf ∧
  (∀ k, (k < length order)%nat → buf' !! (i + k)%nat = order !! k) ∧
  (∀ k, (k < i)%nat → buf' !! k = buf !! k).
Proof.
  induction order as [|a order IH]; simpl; intros buf i buf' n Hl.
  - injection Hl as <- <-. repeat split; [lia|]. intros k Hk. lia.
  - case_decide as Hi; [|discriminate].
    apply IH in Hl as (-> & Hlen & Hget & Hkeep).
    rewrite length_insert in Hlen.
    repeat split; [lia|done| |].
    + intros [|k] Hk.
      * rewrite Nat.add_0_r, Hkeep by lia. simpl.
        by apply list_lookup_insert_eq.
      * replace (i + S k)%nat with (S i + k)%nat by lia. apply Hget. lia.
    + intros k Hk. rewrite Hkeep by lia. apply list_lookup_insert_ne. lia.
Qed.

Lemma liveLoop_total order : ∀ buf i,
  (i + length order ≤ length buf)%nat → is_Some (liveLoop buf i order).
Proof.
  induction order as [|a order IH]; simpl; intros buf i Hle; [by eexists|].
  rewrite decide_True by lia. apply IH. rewrite length_insert. lia.
Qed.

Lemma deadLoop_liveLoop lc cs : ∀ buf i,
  deadLoop lc buf i cs =
  liveLoop buf i (idx <$> filter (λ c, lc !! idx c = None) cs).
Proof.
  induction cs as [|c cs IH]; simpl; intros buf i; [done|].
  rewrite filter_cons. destruct (lc !! idx c) as [b|] eqn:Hc.
  - destruct (decide (Some b = None)) as [Hn|_]; [discriminate|]. apply IH.
  - destruct (decide (None = None)) as [_|Hn]; [|done]. simpl.
    destruct (decide (i < length buf)%nat); [apply IH|reflexivity].
Qed.

Lemma pick_none_iff (e : Env Cell) (r : R) order :
  order = [] ↔
  ∃ e' r', pick e r (liveLoop (cellsBuf e) 0 order) = Some (None, e', r').
Proof.
  split.
  - intros ->. simpl. by eexists _, _.
  - intros (e' & r' & Hp). unfold pick in Hp.
    destruct (liveLoop (cellsBuf e) 0 order) as [[buf i]|] eqn:Hl; [|discriminate].
    apply liveLoop_Some in Hl as (-> & _). simpl in Hp.
    destruct order as [|a order]; [done|]. exfalso. simpl in Hp.
    destruct (Intn _ r) as [k r1].
    destruct (index buf k); simpl in Hp; [|discriminate].
    destruct (index (cells e) _); simpl in Hp; discriminate.
Qed.

Lemma pick_some `{!RNGLaws R} (e : Env Cell) (r : R) order :
  order ≠ [] →
  (length order ≤ length (cellsBuf e))%nat →
  (∀ k, k ∈ order → is_Some (index (cells e) k)) →
  ∃ k c buf r',
    k ∈ order ∧ index (cells e) k = Some c ∧
    pick e r (liveLoop (cellsBuf e) 0 order) =
      Some (Some (clone c), set_cellsBuf e buf, r').
Proof.
  intros Hne Hfit Hvalid.
  destruct (liveLoop_total order (cellsBuf e) 0) as [[buf n] Hl]; [simpl; lia|].
  rewrite Hl. apply liveLoop_Some in Hl as (-> & Hlen & Hget & _).
  unfold pick. simpl.
  assert (0 < length order)%nat as Hpos by (destruct order; simpl; [done|lia]).
  rewrite decide_False by lia.
  pose proof (Intn_range (Z.of_nat (length order)) r ltac:(lia)) as Hr.
  destruct (Intn (Z.of_nat (length order)) r) as [j r'] eqn:Hj. simpl in Hr.
  assert (buf !! Z.to_nat j = order !! Z.to_nat j) as Hbuf
    by (apply (Hget (Z.to_nat j)); lia).
  destruct (lookup_lt_is_Some_2 order (Z.to_nat j)) as [k Hk]; [lia|].
  assert (index buf j = Some k) as ->
    by (apply index_Some; split; [lia|congruence]).
  assert (k ∈ order) as Hin by (apply list_elem_of_lookup; eauto).
  destruct (Hvalid k Hin) as [c Hc]. simpl. rewrite Hc. simpl.
  by exists k, c, buf, r'.
Qed.

(** The keys of the membership map fit the scratch buffer. *)
Lemma keys_fit (lc : gmap Z bool) (n : nat) order :
  order ≡ₚ (map_to_list lc).*1 →
  (∀ k, is_Some (lc !! k) → 0 ≤ k < Z.of_nat n) →
  (length order ≤ n)%nat.
Proof.
  intros Hperm Hin.
  assert (NoDup order) as Hnd by (rewrite Hperm; apply NoDup_fst_map_to_list).
  assert (order ⊆+ seqZ 0 (Z.of_nat n)) as Hsub.
  { apply NoDup_submseteq; [done|]. intros k Hk. rewrite Hperm in Hk.
    apply list_elem_of_fmap in Hk as ([k' b] & -> & Hkb). simpl.
    apply elem_of_map_to_list in Hkb. apply elem_of_seqZ.
    specialize (Hin k' ltac:(by eexists)). lia. }
  apply submseteq_length in Hsub. rewrite length_seqZ in Hsub. lia.
Qed.

Lemma range_order_elem (e : Env Cell) order k :
  range_order e order → k ∈ order ↔ is_Some (liveCells e !! k).
Proof.
  unfold range_order. intros ->. rewrite list_elem_of_fmap. split.
  - intros ([k' b] & -> & Hkb). apply elem_of_map_to_list in Hkb. by eexists.
  - intros [b Hb]. exists (k, b). split; [done|]. by apply elem_of_map_to_list.
Qed.

Lemma range_order_nil (e : Env Cell) order :
  range_order e order → order = [] ↔ liveCells e = ∅.
Proof.
  unfold range_order. intros Hp. split.
  - intros ->. apply Permutation_nil_l in Hp. symmetry in Hp.
    apply fmap_nil_inv in Hp. by apply map_to_list_empty_iff.
  - intros Hl. rewrite Hl, map_to_list_empty in Hp. simpl in Hp.
    by apply Permutation_nil_r in Hp.
Qed.

End SamplerFacts.

Section SamplerClaims.
Context {Cell R : Type} `{CellOps Cell} `{RNG R} `{!VM Cell R}.

Lemma dead_nil_iff (e : Env Cell) :
  idx <$> filter (λ c, liveCells e !! idx c = None) (cells e) = [] ↔
  ∀ c, c ∈ cells e → is_Some (liveCells e !! idx c).
Proof.
  split.
  - intros Hnil c Hc. apply fmap_nil_inv in Hnil.
    destruct (liveCells e !! idx c) eqn:Hl; [by eexists|].
    by destruct (filter_nil_not_elem_of _ _ c Hnil Hl).
  - intros Hall.
    destruct (filter _ (cells e)) as [|c cs] eqn:Hf; [done|].
    assert (c ∈ filter (λ c, liveCells e !! idx c = None) (cells e)) as Hc
      by (rewrite Hf; left).
    apply list_elem_of_filter in Hc as [Hn Hc].
    destruct (Hall c Hc) as [b Hb]. congruence.
Qed.

Lemma store_wf_slot (e : Env Cell) c :
  store_wf e → c ∈ cells e → index (cells e) (idx c) = Some c.
Proof.
  intros (_ & Hidx & _) Hc. apply list_elem_of_lookup in Hc as [i Hi].
  rewrite (Hidx i c Hi). apply index_Some. split; [lia|].
  by rewrite Nat2Z.id.
Qed.

Lemma store_wf_member (e : Env Cell) c :
  store_wf e → c ∈ cells e → is_Some (liveCells e !! idx c) ↔ live c = true.
Proof.
  intros Hwf Hc. pose proof (store_wf_slot e c Hwf Hc) as Hs.
  destruct Hwf as (_ & _ & Hinv). rewrite (Hinv (idx c)). split.
  - intros (c' & Hc' & Hl). congruence.
  - intros Hl. by exists c.
Qed.

(** The dead sampler on a well-formed store. *)
Lemma sampler_nil_iff_aux `{!RNGLaws R} (e : Env Cell) (r : R) :
  store_wf e →
  ((∀ c, c ∈ cells e → live c = true) ↔
     ∃ e' r', getRandomDeadCell e r = Some (None, e', r')) ∧
  (¬ (∀ c, c ∈ cells e → live c = true) →
     ∃ c buf r',
       c ∈ cells e ∧ liveCells e !! idx c = None ∧ live c = false ∧
       getRandomDeadCell e r = Some (Some (clone c), set_cellsBuf e buf, r')).
Proof.
  intros Hwf.
  assert ((∀ c, c ∈ cells e → is_Some (liveCells e !! idx c)) ↔
          ∃ e' r', getRandomDeadCell e r = Some (None, e', r')) as Hdead.
  { unfold getRandomDeadCell. rewrite deadLoop_liveLoop.
    rewrite <- pick_none_iff. symmetry. apply dead_nil_iff. }
  split.
  - rewrite <- Hdead.
    split; intros Hall c Hc; apply (store_wf_member e c Hwf Hc); auto.
  - intros Hnot.
    set (dead := filter (λ c, liveCells e !! idx c = None) (cells e)).
    destruct (pick_some e r (idx <$> dead)) as (k & c & buf & r' & Hk & Hc & Hp);
      subst dead.
    + intros Hnil. pose proof (proj1 (dead_nil_iff e) Hnil) as Hall. apply Hnot.
      intros c Hc. apply (store_wf_member e c Hwf Hc); auto.
    + rewrite length_fmap. destruct Hwf as (-> & _). apply length_filter.
    + intros k (c & -> & Hc)%list_elem_of_fmap.
      apply list_elem_of_filter in Hc as [_ Hc].
      rewrite (store_wf_slot e c Hwf Hc). by eexists.
    + apply list_elem_of_fmap in Hk as (c0 & -> & Hc0).
      apply list_elem_of_filter in Hc0 as [Hn Hc0].
      rewrite (store_wf_slot e c0 Hwf Hc0) in Hc. injection Hc as <-.
      exists c0, buf, r'. repeat split; [exact Hc0|exact Hn| |].
      * destruct (live c0) eqn:Hl; [|done].
        apply (store_wf_member e c0 Hwf Hc0) in Hl as [b Hb]. congruence.
      * unfold getRandomDeadCell. rewrite deadLoop_liveLoop. exact Hp.
Qed.

(** C6. [getRandomLiveCell] returns nil exactly when the membership set is
    empty, and [getRandomDeadCell] returns nil exactly when every cell is in
    the membership set, which on a well-formed store means that every cell
    is alive. Otherwise, on a well-formed store and with a generator that
    draws below its bound, each returns a copy of a stored cell of its set:
    a living member, or a dead cell outside the membership set. *)
Theorem sampler_nil_iff (e : Env Cell) (r : R) (order : list Z) :
  range_order e order →
  (liveCells e = ∅ ↔
     ∃ e' r', getRandomLiveCell order e r = Some (None, e', r')) ∧
  ((∀ c, c ∈ cells e → is_Some (liveCells e !! idx c)) ↔
     ∃ e' r', getRandomDeadCell e r = Some (None, e', r')) ∧
  (store_wf e → RNGLaws R →
     ((∀ c, c ∈ cells e → live c = true) ↔
        ∃ e' r', getRandomDeadCell e r = Some (None, e', r')) ∧
     (liveCells e ≠ ∅ →
        ∃ k c buf r',
          is_Some (liveCells e !! k) ∧ index (cells e) k = Some c ∧
          live c = true ∧
          getRandomLiveCell order e r =
            Some (Some (clone c), set_cellsBuf e buf, r')) ∧
     (¬ (∀ c, c ∈ cells e → live c = true) →
        ∃ c buf r',
          c ∈ cells e ∧ liveCells e !! idx c = None ∧ live c = false ∧
          getRandomDeadCell e r =
            Some (Some (clone c), set_cellsBuf e buf, r'))).
Proof.
  intros Horder.
  assert ((∀ c, c ∈ cells e → is_Some (liveCells e !! idx c)) ↔
          ∃ e' r', getRandomDeadCell e r = Some (None, e', r')) as Hdead.
  { unfold getRandomDeadCell. rewrite deadLoop_liveLoop.
    rewrite <- pick_none_iff. symmetry. apply dead_nil_iff. }
  split; [|split; [exact Hdead|]].
  - unfold getRandomLiveCell. rewrite <- pick_none_iff.
    symmetry. by apply range_order_nil.
  - intros Hwf Hrng.
    destruct (sampler_nil_iff_aux e r Hwf) as [Hnil Hsome].
    split; [exact Hnil|split; [|exact Hsome]].
    intros Hne.
    destruct (pick_some e r order) as (k & c & buf & r' & Hk & Hc & Hp).
    + intros Ho. by apply (range_order_nil e order Horder) in Ho.
    + destruct Hwf as (-> & _ & Hinv).
      apply (keys_fit (liveCells e)); [exact Horder|].
      intros k [c [Hc _]]%Hinv. apply index_is_Some. by eexists.
    + intros k Hk%(range_order_elem e order k Horder).
      destruct Hwf as (_ & _ & Hinv).
      apply Hinv in Hk as (c & -> & _). by eexists.
    + apply (range_order_elem e order k Horder) in Hk.
      exists k, c, buf, r'. repeat split; [exact Hk|exact Hc| |exact Hp].
      destruct Hwf as (_ & _ & Hinv).
      pose proof Hk as (c' & Hc' & Hl)%Hinv. congruence.
Qed.

(** C5. On an Introduce request with [SeedLiveCells] false the worker
    samples a dead cell: the request is dropped, no Delta made, exactly when
    [getRandomDeadCell] returns nil, which on a well-formed store is when
    every cell is alive; otherwise the Delta of [seed] on the sampled dead
    cell is forwarded. With [SeedLiveCells] true the worker samples any cell
    with [getRandomCell] and forwards the Delta of [seed] on it, never
    dropping the request. An Introduce request never starts a goroutine. *)
Theorem process_inflow_cases (e : Env Cell) (r : R) :
  (SeedLiveCells (GetConfig e) = false →
     (∀ e1 r1, getRandomDeadCell e r = Some (None, e1, r1) →
        process_inflow e r = Some (Dropped, e1, r1)) ∧
     (∀ c e1 r1, getRandomDeadCell e r = Some (Some c, e1, r1) →
        process_inflow e r = Some (Forward (seed e1 r1 c).1, e1, (seed e1 r1 c).2)) ∧
     (store_wf e → RNGLaws R →
        ((∀ c, c ∈ cells e → live c = true) ↔
           ∃ e1 r1, process_inflow e r = Some (Dropped, e1, r1)) ∧
        (¬ (∀ c, c ∈ cells e → live c = true) →
           ∃ c buf r1,
             c ∈ cells e ∧ live c = false ∧
             process_inflow e r =
               Some (Forward (seed (set_cellsBuf e buf) r1 (clone c)).1,
                     set_cellsBuf e buf,
                     (seed (set_cellsBuf e buf) r1 (clone c)).2)))) ∧
  (SeedLiveCells (GetConfig e) = true →
     (∀ e1 r1, process_inflow e r ≠ Some (Dropped, e1, r1)) ∧
     (∀ c r1, getRandomCell e r = Some (c, r1) →
        process_inflow e r = Some (Forward (seed e r1 c).1, e, (seed e r1 c).2))) ∧
  (∀ e1 r1, process_inflow e r ≠ Some (Redirect, e1, r1)).
Proof.
  assert (∀ e1 r1 c, (let '(dt, r2) := seed e1 r1 c in
                      Some (Forward dt, e1, r2)) =
                     Some (Forward (seed e1 r1 c).1, e1, (seed e1 r1 c).2)) as Hseed.
  { intros e1 r1 c. by destruct (seed e1 r1 c). }
  split; [|split].
  - intros Hcfg.
    assert (∀ e1 r1, getRandomDeadCell e r = Some (None, e1, r1) →
              process_inflow e r = Some (Dropped, e1, r1)) as Hdrop.
    { intros e1 r1 Hg. unfold process_inflow. rewrite Hcfg. simpl.
      by rewrite Hg. }
    assert (∀ c e1 r1, getRandomDeadCell e r = Some (Some c, e1, r1) →
              process_inflow e r =
              Some (Forward (seed e1 r1 c).1, e1, (seed e1 r1 c).2)) as Hfwd.
    { intros c e1 r1 Hg. unfold process_inflow. rewrite Hcfg. simpl.
      rewrite Hg. simpl. apply Hseed. }
    split; [exact Hdrop|split; [exact Hfwd|]].
    intros Hwf Hrng.
    destruct (sampler_nil_iff_aux e r Hwf) as [Hnil Hsome].
    split.
    + rewrite Hnil. split.
      * intros (e1 & r1 & Hg). exists e1, r1. by apply Hdrop.
      * intros (e1 & r1 & Hp). unfold process_inflow in Hp.
        rewrite Hcfg in Hp. simpl in Hp.
        destruct (getRandomDeadCell e r) as [[[[c|] e2] r2]|]; simpl in Hp.
        -- rewrite Hseed in Hp. discriminate.
        -- by exists e2, r2.
        -- discriminate.
    + intros Hnot. destruct (Hsome Hnot) as (c & buf & r1 & Hc & _ & Hl & Hg).
      exists c, buf, r1. repeat split; [exact Hc|exact Hl|]. by apply Hfwd.
  - intros Hcfg. split.
    + intros e1 r1 Hp. unfold process_inflow in Hp. rewrite Hcfg in Hp.
      simpl in Hp. destruct (getRandomCell e r) as [[c r2]|]; simpl in Hp.
      * rewrite Hseed in Hp. discriminate.
      * discriminate.
    + intros c r1 Hg. unfold process_inflow. rewrite Hcfg. simpl.
      rewrite Hg. simpl. apply Hseed.
  - intros e1 r1 Hp. unfold process_inflow in Hp.
    destruct (negb _).
    + destruct (getRandomDeadCell e r) as [[[[c|] e2] r2]|]; simpl in Hp;
        rewrite ?Hseed in Hp; discriminate.
    + destruct (getRandomCell e r) as [[c r2]|]; simpl in Hp;
        rewrite ?Hseed in Hp; discriminate.
Qed.

End SamplerClaims.

(** ** The running system *)

Section SystemFacts.
Context {Cell R : Type} `{CellOps Cell} `{RNG R} `{!VM Cell R}.

Lemma run_trace_inv (P : Sys Cell R → Prop) :
  (∀ l s s', step l s = Some s' → P s → P s') →
  ∀ ls s s', run_trace ls s = Some s' → P s → P s'.
Proof.
  intros Hstep. induction ls as [|l ls IH]; simpl; intros s s' Hr Hs.
  - by injection Hr as <-.
  - destruct (step l s) as [s1|] eqn:Hl; [|discriminate]. simpl in Hr.
    eapply IH; [exact Hr|]. by eapply Hstep.
Qed.

Lemma Reachable_inv (P : Sys Cell R → Prop) e n :
  (∀ s0, Run e n = Some s0 → P s0) →
  (∀ l s s', step l s = Some s' → P s → P s') →
  ∀ s, Reachable e n s → P s.
Proof.
  intros Hinit Hstep s (s0 & ls & Hs0 & Hr).
  eapply run_trace_inv; [exact Hstep|exact Hr|]. by apply Hinit.
Qed.

Lemma Run_Some e n s0 :
  Run e n = Some s0 →
  0 ≤ n ∧ env s0 = e ∧ pc s0 = CSeed ∧ defers s0 = deferred_at_start ∧
  workers s0 = replicate (Z.to_nat n) (WSelect, newContext e) ∧
  redirects s0 = 0%nat ∧ dts s0 = [] ∧ dtsCap s0 = Z.to_nat n ∧
  closed s0 = [] ∧ panicked s0 = false ∧
  issued s0 = [] ∧ sent s0 = [] ∧ applied s0 = [] ∧ output s0 = [].
Proof.
  unfold Run. case_decide; [discriminate|]. intros [= <-]. simpl.
  repeat split; try done. lia.
Qed.

(** *** Replaying the applied Deltas *)

Lemma applyCells_same_store cs : ∀ (e1 e2 e2' : Env Cell),
  cells e1 = cells e2 → liveCells e1 = liveCells e2 →
  applyCells cs e2 = Some e2' →
  ∃ e1', applyCells cs e1 = Some e1' ∧
         cells e1' = cells e2' ∧ liveCells e1' = liveCells e2'.
Proof.
  induction cs as [|c cs IH]; simpl; intros e1 e2 e2' Hc Hl He.
  - injection He as <-. by exists e1.
  - destruct (applyCell e2 c) as [e3|] eqn:H3; [|discriminate].
    pose proof (applyCell_Some _ _ _ H3) as (Hr & Hcs & Hlc & _).
    unfold applyCell at 1. rewrite Hc, Hl, decide_True by done.
    eapply IH; [| |exact He]; simpl; by rewrite ?Hcs, ?Hlc.
Qed.

Lemma replay_snoc ds dt (e : Env Cell) :
  replay (ds ++ [dt]) e = e' ← replay ds e; applyDelta e' dt.
Proof.
  revert e. induction ds as [|d ds IH]; simpl; intros e.
  - by destruct (applyDelta e dt).
  - destruct (applyDelta e d); simpl; [apply IH|done].
Qed.

Lemma pick_env (e : Env Cell) (r : R) filled oc e' r' :
  pick e r filled = Some (oc, e', r') → ∃ buf, e' = set_cellsBuf e buf.
Proof.
  unfold pick. destruct filled as [[buf i]|]; simpl; [|discriminate].
  case_decide.
  - intros [= <- <- <-]. by exists buf.
  - destruct (Intn _ r) as [k r1].
    destruct (index buf k); simpl; [|discriminate].
    destruct (index (cells e) _); simpl; [|discriminate].
    intros [= <- <- <-]. by exists buf.
Qed.

Lemma process_inflow_env (e : Env Cell) (r : R) o e' r' :
  process_inflow e r = Some (o, e', r') → ∃ buf, e' = set_cellsBuf e buf.
Proof.
  unfold process_inflow. destruct (negb _).
  - destruct (getRandomDeadCell e r) as [[[oc e1] r1]|] eqn:Hg; simpl; [|discriminate].
    apply pick_env in Hg as [buf ->].
    destruct oc as [c|]; [destruct (seed _ r1 c)|]; intros [= <- <- <-]; by exists buf.
  - destruct (getRandomCell e r) as [[c r1]|]; simpl; [|discriminate].
    destruct (seed e r1 c). intros [= <- <- <-]. exists (cellsBuf e). by destruct e.
Qed.

Lemma process_exec_env order (e : Env Cell) (r : R) o e' r' :
  process_exec order e r = Some (o, e', r') → ∃ buf, e' = set_cellsBuf e buf.
Proof.
  unfold process_exec.
  destruct (getRandomLiveCell order e r) as [[[oc e1] r1]|] eqn:Hg; simpl; [|discriminate].
  apply pick_env in Hg as [buf ->].
  destruct oc as [c|]; [destruct (exec _ r1 c)|]; intros [= <- <- <-]; by exists buf.
Qed.

Lemma all_done_lookup (s : Sys Cell R) j w r :
  all_done s = true → workers s !! j = Some (w, r) → w = WDone.
Proof.
  unfold all_done. generalize (workers s). intros ws. revert j.
  induction ws as [|[w' r'] ws IH]; intros j Hall Hj; [done|].
  simpl in Hall. apply andb_true_iff in Hall as [Hw Hall].
  destruct j as [|j]; simpl in Hj.
  - injection Hj as -> ->. by destruct w.
  - by eapply IH.
Qed.

Lemma is_closed_true c (s : Sys Cell R) : is_closed c s = true ↔ c ∈ closed s.
Proof. unfold is_closed. apply bool_decide_eq_true. Qed.

Lemma is_closed_false c (s : Sys Cell R) : is_closed c s = false ↔ c ∉ closed s.
Proof. unfold is_closed. apply bool_decide_eq_false. Qed.

End SystemFacts.

(** Tactics for the case analysis of a step. *)

Ltac step_cases Hs :=
  unfold step, finish, run_deferred, close, panic, set_worker in Hs;
  repeat (case_match; try discriminate);
  simplify_eq; simpl in *.

Ltac worker_env :=
  repeat match goal with
    | Hp : process_inflow _ _ = Some _ |- _ => apply process_inflow_env in Hp as [? ->]
    | Hp : process_exec _ _ _ = Some _ |- _ => apply process_exec_env in Hp as [? ->]
    end.

Ltac closed_facts :=
  repeat match goal with
    | Hc : is_closed _ _ = true |- _ => apply is_closed_true in Hc
    | Hc : is_closed _ _ = false |- _ => apply is_closed_false in Hc
    end.

Ltac done_worker :=
  match goal with
  | Hd : all_done ?s = true, Hw : workers ?s !! _ = Some (_, _) |- _ =>
      pose proof (all_done_lookup _ _ _ _ Hd Hw); discriminate
  end.

Ltac use_pc s :=
  unfold order_inv, deferred_at_start in *; simpl in *;
  repeat match goal with
    | Hpc : pc s = _ |- _ => rewrite Hpc in *; clear Hpc
    end.

Ltac settle_order :=
  repeat match goal with
    | Hi : _ ∧ _ |- _ => destruct Hi
    | Hi : _ ∨ _ |- _ => destruct Hi
    end;
  repeat match goal with
    | Hc : closed _ = _ |- _ => rewrite Hc in *; clear Hc
    | Hc : defers _ = _ |- _ => rewrite Hc in *; clear Hc
    end;
  simplify_eq; simpl in *;
  repeat match goal with
    | Hin : _ ∈ _ :: _ |- _ => apply elem_of_cons in Hin as [Hin|Hin]; try discriminate
    | Hin : _ ∈ [] |- _ => by apply elem_of_nil in Hin
    | Hni : _ ∉ _ |- _ => by (exfalso; apply Hni; repeat constructor)
    end;
  try (split; [auto|]); auto 10.

Section SystemSteps.
Context {Cell R : Type} `{CellOps Cell} `{RNG R} `{!VM Cell R}.

(** A step leaves the store alone or is the one [applyDelta] of [Run]. *)
Lemma step_store l (s s' : Sys Cell R) :
  step l s = Some s' →
  (applied s' = applied s ∧ cells (env s') = cells (env s) ∧
   liveCells (env s') = liveCells (env s)) ∨
  (∃ dt, applied s' = applied s ++ [dt] ∧ applyDelta (env s) dt = Some (env s')).
Proof.
  intros Hs. destruct l; step_cases Hs; worker_env; simpl; auto.
  right. eexists. split; done.
Qed.

Lemma step_flow_inv e0 l s s' : step l s = Some s' → flow_inv e0 s → flow_inv e0 s'.
Proof.
  intros Hs (Hsent & Happ & e' & Hrep & Hcells & Hlive). unfold flow_inv.
  split; [|split].
  - clear Hrep Hcells Hlive. destruct l; step_cases Hs; try assumption;
      rewrite ?Hsent, <- ?app_assoc; simpl; congruence.
  - clear Hrep Hcells Hlive. destruct l; step_cases Hs; try assumption;
      congruence.
  - destruct (step_store l s s' Hs) as [(-> & -> & ->)|(dt & -> & Hd)].
    + by exists e'.
    + destruct (applyCells_same_store (Cells dt) e' (env s) (env s') Hcells Hlive Hd)
        as (e1 & He1 & Hc1 & Hl1).
      exists e1. rewrite replay_snoc, Hrep. simpl. done.
Qed.

Lemma Run_flow_inv e n s0 : Run e n = Some s0 → flow_inv e s0.
Proof.
  intros (_ & He & Hpc & _ & _ & _ & Hd & _ & _ & _ & _ & Hs & Ha & Ho)%Run_Some.
  unfold flow_inv. rewrite Hpc, Hs, Ha, Ho, Hd, He. simpl.
  repeat split. by exists e.
Qed.

(** *** The order of the closes *)

Lemma step_all_done l (s s' : Sys Cell R) :
  step l s = Some s' → all_done s = true → all_done s' = true.
Proof.
  intros Hs Hd. destruct l; step_cases Hs; try done_worker; try assumption.
Qed.

Lemma step_other l (s s' : Sys Cell R) :
  coord l = false → l ≠ LStop → step l s = Some s' →
  pc s' = pc s ∧ closed s' = closed s ∧ defers s' = defers s.
Proof.
  intros Hl Hne Hs. destruct l; try discriminate; try done; step_cases Hs; done.
Qed.

Lemma order_inv_frame (s s' : Sys Cell R) :
  pc s' = pc s → closed s' = closed s → defers s' = defers s →
  (all_done s = true → all_done s' = true) →
  order_inv s → order_inv s'.
Proof.
  unfold order_inv. intros -> -> -> Hd. destruct (pc s); tauto.
Qed.

Lemma step_order_inv l (s s' : Sys Cell R) :
  step l s = Some s' → order_inv s → order_inv s'.
Proof.
  intros Hs Hinv. pose proof (step_all_done l s s' Hs) as Hd.
  destruct (coord l) eqn:Hl;
    [|destruct (match l with LStop => true | _ => false end) eqn:Hstop].
  - destruct l; try discriminate; step_cases Hs; closed_facts; use_pc s.
    all: try tauto.
    all: settle_order.
  - destruct l; try discriminate.
    step_cases Hs; closed_facts; use_pc s.
    all: destruct (pc s); settle_order.
  - assert (l ≠ LStop) as Hne by (intros ->; discriminate).
    destruct (step_other l s s' Hl Hne Hs) as (Hpc & Hcl & Hdf).
    by apply (order_inv_frame s s').
Qed.

Lemma Run_order_inv e n (s0 : Sys Cell R) : Run e n = Some s0 → order_inv s0.
Proof.
  intros (_ & _ & Hpc & Hdf & _ & _ & _ & _ & Hcl & _)%Run_Some.
  unfold order_inv. rewrite Hpc, Hdf, Hcl. auto.
Qed.

End SystemSteps.

Section SystemClaims.
Context {Cell R : Type} `{CellOps Cell} `{RNG R} `{!VM Cell R}.

(** C1, as the code has it. In every state of a run the Deltas sent on
    [dts] are, in order, those [Run] has taken and applied followed by those
    still in the buffer; the applied Deltas, replayed from the initial
    environment, give the store; each applied Delta is delivered on [deltas]
    once, in the same order, the last one possibly still to be delivered.
    When [Run] has returned, the Deltas delivered are the Deltas applied, and
    the Deltas still in the buffer were neither applied nor delivered. *)
Theorem deltas_flow (e : Env Cell) (processN : Z) (s : Sys Cell R) :
  Reachable e processN s →
  flow_inv e s ∧
  (pc s = CDone → applied s = output s ∧ sent s = output s ++ dts s).
Proof.
  intros Hr.
  assert (flow_inv e s) as Hflow.
  { revert s Hr. apply Reachable_inv.
    - apply Run_flow_inv.
    - intros l s s'. apply step_flow_inv. }
  split; [exact Hflow|]. intros Hpc.
  destruct Hflow as (Hsent & Happ & _). rewrite Hpc in Happ.
  split; [exact Happ|]. by rewrite Hsent, Happ.
Qed.

(** C2, as the code has it. The channels are closed in the order [run],
    [exec], [deltas], [dts], [inflow]: the deferred closes run last
    registered first. The Advance request source is closed when the stop
    signal is taken, nothing more is closed until every worker has returned,
    and when [Run] has returned all five are closed. *)
Theorem close_order (e : Env Cell) (processN : Z) (s : Sys Cell R) :
  Reachable e processN s →
  order_inv s ∧
  closed s `prefix_of` [ChRun; ChExec; ChDeltas; ChDts; ChInflow] ∧
  (pc s = CWait → closed s = [ChRun; ChExec]) ∧
  (ChDeltas ∈ closed s → all_done s = true) ∧
  (pc s = CDone →
     all_done s = true ∧ closed s = [ChRun; ChExec; ChDeltas; ChDts; ChInflow]).
Proof.
  intros Hr.
  assert (order_inv s) as Hinv.
  { revert s Hr. apply Reachable_inv.
    - apply Run_order_inv.
    - intros l s s'. apply step_order_inv. }
  split; [exact Hinv|]. unfold order_inv, deferred_at_start in Hinv.
  split; [|split; [|split]].
  - destruct (pc s); destruct_and?; destruct_or?; destruct_and?;
      match goal with Hc : closed s = _ |- _ => rewrite Hc end;
      by (eexists; reflexivity).
  - intros Hpc. rewrite Hpc in Hinv. tauto.
  - intros Hin.
    destruct (pc s); destruct_and?; destruct_or?; destruct_and?; try done;
      match goal with Hc : closed s = _ |- _ => rewrite Hc in Hin end;
      repeat (apply elem_of_cons in Hin as [Hin|Hin]; try discriminate);
      by apply elem_of_nil in Hin.
  - intros Hpc. rewrite Hpc in Hinv. tauto.
Qed.

Lemma step_client l (s s' : Sys Cell R) :
  coord l = false → step l s = Some s' →
  pc s' = pc s ∧ inflowTick s' = inflowTick s ∧ issued s' = issued s.
Proof.
  intros Hl Hs. destruct l; try discriminate; step_cases Hs; done.
Qed.

Lemma step_called_for l (s s' : Sys Cell R) :
  step l s = Some s' →
  issued s' ++ owed s' =
  issued s ++ owed s ++
    match l with
    | LSeed _ => [RInflow]
    | LTick => tick_requests (inflowTick s)
    | _ => []
    end.
Proof.
  intros Hs.
  destruct l; step_cases Hs; unfold owed, tick_requests; simpl;
    repeat match goal with Hpc : pc s = _ |- _ => rewrite Hpc; clear Hpc end;
    rewrite <- ?app_assoc, ?app_nil_r; simpl; try done.
  all: try (case_decide; done).
Qed.

(** C4. [Run] enters its loop with the countdown at the [InflowFrequency] of
    the Config. A tick decrements the countdown; if it is then zero [Run]
    stands at the Introduce send, where its only move is to hand over one
    Introduce request, after which it sets the countdown to the
    [InflowFrequency] of the Config current at that moment; in both cases it
    then stands at the Advance send, where its only move is to hand over one
    Advance request and go back to the select. No other goroutine touches
    the countdown. So over a schedule the requests handed over, with those of
    a tick under way, are those the seeding and the ticks call for: per tick
    one Advance request, preceded by one Introduce request exactly when the
    countdown reaches zero. *)
Theorem tick_countdown (l : Label) (s s' : Sys Cell R) :
  step l s = Some s' →
  (coord l = false →
     pc s' = pc s ∧ inflowTick s' = inflowTick s ∧ issued s' = issued s) ∧
  (l = LEnterLoop →
     pc s = CSeed ∧ pc s' = CSelect ∧ issued s' = issued s ∧
     inflowTick s' = InflowFrequency (GetConfig (env s))) ∧
  (l = LTick →
     pc s = CSelect ∧ issued s' = issued s ∧
     inflowTick s' = wrap64 (inflowTick s - 1) ∧
     pc s' = if decide (inflowTick s' = 0) then CTickInflow else CTickExec) ∧
  (coord l = true → pc s = CTickInflow →
     (∃ j, l = LTickInflow j) ∧ pc s' = CTickReset ∧
     issued s' = issued s ++ [RInflow] ∧ inflowTick s' = inflowTick s) ∧
  (coord l = true → pc s = CTickReset →
     l = LTickReset ∧ pc s' = CTickExec ∧ issued s' = issued s ∧
     inflowTick s' = InflowFrequency (GetConfig (env s))) ∧
  (coord l = true → pc s = CTickExec →
     (∃ j, l = LTickExec j) ∧ pc s' = CSelect ∧
     issued s' = issued s ++ [RExec] ∧ inflowTick s' = inflowTick s) ∧
  (∀ ls s'', run_trace ls s = Some s'' →
     issued s'' ++ owed s'' = issued s ++ owed s ++ called_for ls s).
Proof.
  intros Hs. split; [|split; [|split; [|split; [|split; [|split]]]]].
  - intros Hl. by apply (step_client l).
  - intros ->. step_cases Hs; done.
  - intros ->. step_cases Hs; done.
  - intros Hl Hpc. destruct l; try discriminate; step_cases Hs; try congruence.
    all: split; [by eexists|done].
  - intros Hl Hpc. destruct l; try discriminate; step_cases Hs; try congruence.
    all: done.
  - intros Hl Hpc. destruct l; try discriminate; step_cases Hs; try congruence.
    all: split; [by eexists|done].
  - clear. intros ls. revert s.
    induction ls as [|l ls IH]; simpl; intros s s'' Hr.
    + injection Hr as <-. by rewrite !app_nil_r.
    + destruct (step l s) as [s1|] eqn:Hl; [|discriminate]. simpl in Hr.
      rewrite (IH _ _ Hr), app_assoc, (step_called_for l s s1 Hl).
      by rewrite <- !app_assoc.
Qed.

(** C7. A worker that deals with an Advance request while the membership
    set is empty makes no Delta: it starts one goroutine that stands at
    [inflow <- true] and is itself back at its select, ready. Nothing is
    sent on [dts]. Any worker at its select can then take that one Introduce
    request, as long as [inflow] is open. A goroutine is started only when
    the membership set is empty. *)
Theorem starved_advance (s : Sys Cell R) (j : nat) (r : R) (order : list Z) :
  panicked s = false →
  workers s !! j = Some (WExec, r) →
  range_order (env s) order →
  (∀ e1 r1, process_exec order (env s) r = Some (Redirect, e1, r1) →
     liveCells (env s) = ∅) ∧
  (liveCells (env s) = ∅ →
   process_exec order (env s) r = Some (Redirect, env s, r) ∧
   ∃ s', step (LAdvance j order) s = Some s' ∧
     workers s' = <[j := (WSelect, r)]> (workers s) ∧
     redirects s' = S (redirects s) ∧
     dts s' = dts s ∧ sent s' = sent s ∧ issued s' = issued s ∧
     env s' = env s ∧ pc s' = pc s ∧ closed s' = closed s ∧
     panicked s' = false ∧
     (is_closed ChInflow s = false →
      ∀ k rk, workers s' !! k = Some (WSelect, rk) →
        ∃ s'', step (LRedirected k) s' = Some s'' ∧
               redirects s'' = redirects s ∧
               workers s'' = <[k := (WInflow, rk)]> (workers s'))).
Proof.
  intros Hp Hw Ho. split.
  - intros e1 r1 Hx. unfold process_exec in Hx.
    destruct (getRandomLiveCell order (env s) r) as [[[oc e2] r2]|] eqn:Hg;
      simpl in Hx; [|discriminate].
    destruct oc as [c|]; [destruct (exec e2 r2 c); discriminate|].
    apply (range_order_nil (env s) order Ho).
    apply (pick_none_iff (env s) r order). by exists e2, r2.
  - intros Hempty.
    assert (process_exec order (env s) r = Some (Redirect, env s, r)) as Hx.
    { apply (range_order_nil (env s) order Ho) in Hempty. subst order.
      unfold process_exec, getRandomLiveCell. simpl. by destruct (env s). }
    split; [exact Hx|].
    unfold step. rewrite Hp, Hw, decide_True by done. rewrite Hx.
    eexists. split; [reflexivity|]. simpl. repeat split.
    + by destruct s, env0.
    + intros Hc k rk Hk. unfold step. simpl. rewrite Hk.
      unfold is_closed in *. simpl. rewrite Hc, Hp.
      eexists. split; [reflexivity|]. done.
Qed.

End SystemClaims.

Lemma run_on_Reachable e processN ls s :
  run_on e processN ls = Some s → Reachable e processN s.
Proof.
  unfold run_on, Reachable. destruct (Run e processN) as [s0|]; simpl; [|discriminate].
  intros Hs. exists s0, ls. split; [reflexivity|exact Hs].
Qed.

(** C1, the counterexample: in [stop_early] the worker has sent its Delta
    and [Run] returns with nothing applied and nothing delivered. *)
Lemma stop_early_loses_delta : ¬ drains_on_stop (Model.grid 2 2 1) 1.
Proof.
  intros Hclaim.
  assert (∃ s, run_on (Model.grid 2 2 1) 1 stop_early = Some s ∧
               pc s = CDone ∧ length (sent s) = 1%nat ∧ output s = [])
    as (s & Hs & Hpc & Hsent & Hout).
  { eexists. split; [vm_compute; reflexivity|].
    repeat split; vm_compute; reflexivity. }
  apply run_on_Reachable in Hs.
  destruct (Hclaim s Hs Hpc) as [Hperm _].
  apply Permutation_length in Hperm. rewrite Hout, Hsent in Hperm.
  discriminate Hperm.
Qed.

(** C2, the counterexample: in [stop_early] the output sink is closed first
    of the three and the Introduce source last. *)
Lemma stop_early_close_order : ¬ closes_inflow_dts_deltas (Model.grid 2 2 1) 1.
Proof.
  intros Hclaim.
  assert (∃ s, run_on (Model.grid 2 2 1) 1 stop_early = Some s ∧
               pc s = CDone ∧
               closed s = [ChRun; ChExec; ChDeltas; ChDts; ChInflow])
    as (s & Hs & Hpc & Hcl).
  { eexists. split; [vm_compute; reflexivity|].
    repeat split; vm_compute; reflexivity. }
  apply run_on_Reachable in Hs.
  specialize (Hclaim s Hs Hpc). rewrite Hcl in Hclaim. discriminate Hclaim.
Qed.

(** The goroutine of a starved worker can outlive [Run]: in [starved_stop]
    it still stands at [inflow <- true] when the deferred [close(inflow)]
    runs, and panics. *)
Lemma starved_stop_panics :
  ∃ s, run_on (Model.grid 2 2 0) 1 starved_stop = Some s ∧
       panicked s = true ∧ redirects s = 1%nat ∧
       closed s = [ChRun; ChExec; ChDeltas; ChDts; ChInflow].
Proof.
  eexists. split; [vm_compute; reflexivity|].
  repeat split; vm_compute; reflexivity.
Qed.

(** ** The statements on concrete grids *)

Lemma grid_store_wf w h pop :
  0 ≤ wrap32 (w * h) → store_wf (Model.grid w h pop).
Proof.
  intros Hn. apply (NewEnv_store_wf 1 w h 8 pop 1).
  unfold Model.grid, NewEnv. by rewrite decide_True.
Qed.

Lemma deltas_flow_witness :
  ∃ s, run_on (Model.grid 2 2 1) 1 stop_early = Some s ∧
       applied s = output s ∧ sent s = output s ++ dts s.
Proof.
  assert (∃ s, run_on (Model.grid 2 2 1) 1 stop_early = Some s ∧ pc s = CDone)
    as (s & Hs & Hpc).
  { eexists. split; vm_compute; reflexivity. }
  exists s. split; [exact Hs|].
  apply (deltas_flow (Model.grid 2 2 1) 1 s (run_on_Reachable _ _ _ _ Hs)).
  exact Hpc.
Defined.

Lemma close_order_witness :
  ∃ s, run_on (Model.grid 2 2 0) 1 starved_stop = Some s ∧
       closed s `prefix_of` [ChRun; ChExec; ChDeltas; ChDts; ChInflow].
Proof.
  assert (∃ s, run_on (Model.grid 2 2 0) 1 starved_stop = Some s) as (s & Hs).
  { eexists. vm_compute. reflexivity. }
  exists s. split; [exact Hs|].
  apply (close_order (Model.grid 2 2 0) 1 s (run_on_Reachable _ _ _ _ Hs)).
Defined.

Lemma tick_countdown_witness :
  ∃ s s', run_on (Model.grid 2 2 0) 1 [LEnterLoop] = Some s ∧
          step LTick s = Some s' ∧
          inflowTick s = 10 ∧ inflowTick s' = wrap64 (inflowTick s - 1).
Proof.
  assert (∃ s s', run_on (Model.grid 2 2 0) 1 [LEnterLoop] = Some s ∧
                  step LTick s = Some s' ∧ inflowTick s = 10)
    as (s & s' & Hs & Hstep & Ht).
  { eexists _, _. split; [vm_compute; reflexivity|].
    split; vm_compute; reflexivity. }
  exists s, s'. repeat split; [exact Hs|exact Hstep|exact Ht|].
  destruct (tick_countdown LTick s s' Hstep) as (_ & _ & Htick & _).
  apply (Htick eq_refl).
Defined.

Lemma process_inflow_cases_witness :
  ∃ c buf r1,
    c ∈ cells (Model.grid 2 2 0) ∧ live c = false ∧
    process_inflow (Model.grid 2 2 0) 0 =
      Some (Forward (seed (set_cellsBuf (Model.grid 2 2 0) buf) r1 (clone c)).1,
            set_cellsBuf (Model.grid 2 2 0) buf,
            (seed (set_cellsBuf (Model.grid 2 2 0) buf) r1 (clone c)).2).
Proof.
  destruct (process_inflow_cases (Model.grid 2 2 0) 0) as (Hfalse & _ & _).
  destruct (Hfalse eq_refl) as (_ & _ & Hwf).
  destruct (Hwf (grid_store_wf 2 2 0 ltac:(vm_compute; discriminate))
                Model.counter_rng_laws) as [_ Hsome].
  apply Hsome. intros Hall.
  specialize (Hall (newCell 0 0 0 8) ltac:(left)). discriminate Hall.
Defined.

Lemma sampler_nil_iff_witness :
  ∃ e' r', getRandomLiveCell [] (Model.grid 2 2 0) 0 = Some (None, e', r').
Proof.
  destruct (sampler_nil_iff (Model.grid 2 2 0) 0 []) as (Hlive & _).
  - unfold range_order. vm_compute. constructor.
  - apply Hlive. reflexivity.
Defined.

Lemma starved_advance_witness :
  ∃ s s', run_on (Model.grid 2 2 0) 1 [LEnterLoop; LTick; LTickExec 0%nat] = Some s ∧
          step (LAdvance 0 []) s = Some s' ∧
          redirects s' = S (redirects s) ∧ sent s' = sent s.
Proof.
  assert (∃ s, run_on (Model.grid 2 2 0) 1 [LEnterLoop; LTick; LTickExec 0%nat] = Some s ∧
               panicked s = false ∧ workers s !! 0%nat = Some (WExec, 0) ∧
               liveCells (env s) = ∅)
    as (s & Hs & Hp & Hw & Hl).
  { eexists. split; [vm_compute; reflexivity|].
    repeat split; vm_compute; reflexivity. }
  destruct (starved_advance s 0 0 [] Hp Hw) as [_ Hstarved].
  { unfold range_order. rewrite Hl. vm_compute. constructor. }
  destruct (Hstarved Hl) as (_ & s' & Hstep & _ & Hred & _ & Hsent & _).
  exists s, s'. repeat split; [exact Hs|exact Hstep|exact Hred|exact Hsent].
Defined.

Lemma GetCell_faults_iff_witness :
  GetCell (Model.grid 4 4 0) 0 4 = None.
Proof.
  apply (GetCell_faults_iff (Model.grid 4 4 0) 0 4). vm_compute. intros [_ Hlt].
  discriminate Hlt.
Defined.

(** * Further properties of the store, the grid, the samplers and the run *)

(** ** Applying Deltas: composition, faults, last writes *)

Section StoreAlgebra.
Context {Cell : Type} `{CellOps Cell}.

Lemma applyCells_app cs1 cs2 (e : Env Cell) :
  applyCells (cs1 ++ cs2) e = e' ← applyCells cs1 e; applyCells cs2 e'.
Proof.
  revert e. induction cs1 as [|c cs1 IH]; simpl; intros e; [done|].
  destruct (applyCell e c) as [e1|]; simpl; [apply IH|done].
Qed.

Lemma applyCells_keeps cs : ∀ (e e' : Env Cell),
  applyCells cs e = Some e' →
  Width e' = Width e ∧ Height e' = Height e ∧ GenomeSize e' = GenomeSize e ∧
  Seed e' = Seed e ∧ initPop e' = initPop e ∧ config e' = config e ∧
  cellsBuf e' = cellsBuf e.
Proof.
  induction cs as [|c cs IH]; simpl; intros e e' He.
  - by injection He as <-.
  - destruct (applyCell e c) as [e1|] eqn:Hc; [|discriminate].
    destruct (IH _ _ He) as (-> & -> & -> & -> & -> & -> & ->).
    unfold applyCell in Hc. case_decide; [|discriminate].
    by injection Hc as <-.
Qed.

Lemma applyCells_Some_in_grid cs : ∀ (e e' : Env Cell),
  applyCells cs e = Some e' →
  Forall (λ c, 0 ≤ idx c < Z.of_nat (length (cells e))) cs.
Proof.
  induction cs as [|c cs IH]; simpl; intros e e' He; [constructor|].
  destruct (applyCell e c) as [e1|] eqn:Hc; [|discriminate].
  apply applyCell_Some in Hc as (Hi & Hcs & _).
  constructor; [done|].
  eapply IH in He. by rewrite Hcs, length_insert in He.
Qed.

Lemma Env_eq (e1 e2 : Env Cell) :
  Width e1 = Width e2 → Height e1 = Height e2 → GenomeSize e1 = GenomeSize e2 →
  Seed e1 = Seed e2 → initPop e1 = initPop e2 → config e1 = config e2 →
  cells e1 = cells e2 → cellsBuf e1 = cellsBuf e2 → liveCells e1 = liveCells e2 →
  e1 = e2.
Proof. destruct e1, e2. simpl. intros. subst. reflexivity. Qed.

Lemma index_ext {A} (l1 l2 : list A) :
  (∀ i : Z, index l1 i = index l2 i) → l1 = l2.
Proof.
  intros Hi. apply list_eq. intros n. specialize (Hi (Z.of_nat n)).
  unfold index in Hi. destruct (decide (0 ≤ Z.of_nat n)) as [_|Hn]; [|lia].
  rewrite Nat2Z.id in Hi. exact Hi.
Qed.

Lemma last_at_Some i cs (c : Cell) : last_at i cs = Some c → c ∈ cs ∧ idx c = i.
Proof.
  induction cs as [|c0 cs IH]; simpl; [discriminate|].
  destruct (last_at i cs) as [c'|].
  - intros [= ->]. destruct IH as [Hin Hi]; [done|]. split; [by right|done].
  - case_decide; [|discriminate]. intros [= ->]. split; [left|done].
Qed.

Lemma last_at_None i (cs : list Cell) :
  last_at i cs = None ↔ ∀ c, c ∈ cs → idx c ≠ i.
Proof.
  induction cs as [|c0 cs IH]; simpl.
  - split; [intros _ c Hc; by apply elem_of_nil in Hc|done].
  - destruct (last_at i cs) as [c'|] eqn:Hl.
    + split; [discriminate|]. intros Hall.
      apply last_at_Some in Hl as [Hin Hi]. destruct (Hall c'); [by right|done].
    + case_decide as Hd.
      * split; [discriminate|]. intros Hall. destruct (Hall c0); [left|done].
      * split; [|done]. intros _ c [->|Hc]%elem_of_cons; [done|].
        by apply IH.
Qed.

Lemma last_at_app i (pre post : list Cell) c :
  idx c = i → (∀ c', c' ∈ post → idx c' ≠ i) →
  last_at i (pre ++ c :: post) = Some c.
Proof.
  intros Hc Hpost. induction pre as [|c0 pre IH]; simpl.
  - apply last_at_None in Hpost. rewrite Hpost. by rewrite decide_True.
  - by rewrite IH.
Qed.

(** The store after [applyDelta], slot by slot: the last cell of the Delta
    that carries the index decides. *)
Lemma applyCells_last cs : ∀ (e e' : Env Cell) (i : Z),
  applyCells cs e = Some e' →
  index (cells e') i =
    match last_at i cs with
    | Some c => Some (clone c)
    | None => index (cells e) i
    end ∧
  liveCells e' !! i =
    match last_at i cs with
    | Some c => if live c then Some true else None
    | None => liveCells e !! i
    end.
Proof.
  induction cs as [|c cs IH]; simpl; intros e e' i He.
  - by injection He as <-.
  - destruct (applyCell e c) as [e1|] eqn:Hc; [|discriminate].
    destruct (IH _ _ i He) as [Hcell Hlive]. rewrite Hcell, Hlive.
    destruct (last_at i cs) as [c'|]; [done|].
    apply applyCell_Some in Hc as (Hr & -> & -> & _).
    case_decide as Hd.
    + subst i. split.
      * apply index_Some. split; [lia|]. apply list_lookup_insert_eq. lia.
      * destruct (live c); [apply lookup_insert_eq|apply lookup_delete_eq].
    + split.
      * unfold index. case_decide; [|done]. apply list_lookup_insert_ne. lia.
      * destruct (live c); [by apply lookup_insert_ne|by apply lookup_delete_ne].
Qed.

(** X1. A Delta whose cells are those of [dt1] followed by those of [dt2]
    is applied as [dt1] and then [dt2], faulting when either does; a Delta
    without cells changes nothing. *)
Theorem applyDelta_compose (e : Env Cell) (dt1 dt2 : Delta Cell) :
  applyDelta e {| Cells := Cells dt1 ++ Cells dt2 |} =
    (e' ← applyDelta e dt1; applyDelta e' dt2) ∧
  applyDelta e {| Cells := [] |} = Some e.
Proof. split; [apply applyCells_app|reflexivity]. Qed.

(** X2. [applyDelta] faults exactly when some cell of the Delta carries an
    index outside the grid. When it returns, the grid has kept its length
    and nothing but the cells and the membership set has changed. *)
Theorem applyDelta_faults_iff (e : Env Cell) (dt : Delta Cell) :
  (applyDelta e dt = None ↔ ¬ in_grid e dt) ∧
  ∀ e', applyDelta e dt = Some e' →
    length (cells e') = length (cells e) ∧
    Width e' = Width e ∧ Height e' = Height e ∧ GenomeSize e' = GenomeSize e ∧
    Seed e' = Seed e ∧ initPop e' = initPop e ∧ config e' = config e ∧
    cellsBuf e' = cellsBuf e.
Proof.
  split.
  - split.
    + intros Hn Hg. destruct (applyCells_total (Cells dt) e Hg) as [e' He].
      unfold applyDelta in Hn. congruence.
    + intros Hg. destruct (applyDelta e dt) as [e'|] eqn:He; [|done].
      destruct Hg. by eapply applyCells_Some_in_grid.
  - intros e' He. split; [by eapply applyCells_length|].
    by eapply applyCells_keeps.
Qed.

(** X3. After [applyDelta] the slot of an index holds a copy of the last
    cell of the Delta that carries it, the index is in the membership set
    exactly when that cell is alive, and [GetCell] at any coordinates with
    that linear index returns a copy of the stored copy. *)
Theorem applyDelta_read_back (e e' : Env Cell) (dt : Delta Cell) pre c post :
  applyDelta e dt = Some e' →
  Cells dt = pre ++ c :: post →
  (∀ c', c' ∈ post → idx c' ≠ idx c) →
  index (cells e') (idx c) = Some (clone c) ∧
  (is_Some (liveCells e' !! idx c) ↔ live c = true) ∧
  (∀ x y, wrap32 (x + wrap32 (Width e' * y)) = idx c →
          GetCell e' x y = Some (clone (clone c))).
Proof.
  intros He Hdt Hpost. unfold applyDelta in He. rewrite Hdt in He.
  destruct (applyCells_last _ _ _ (idx c) He) as [Hcell Hlive].
  rewrite (last_at_app (idx c) pre post c eq_refl Hpost) in Hcell, Hlive.
  split; [exact Hcell|split].
  - rewrite Hlive. destruct (live c); split; try done; by intros [? ?].
  - intros x y Hxy. unfold GetCell. by rewrite Hxy, Hcell.
Qed.

(** X4. Applying a Delta a second time changes nothing: the environment
    after one application is a fixed point of the application. *)
Theorem applyDelta_idempotent (e e1 : Env Cell) (dt : Delta Cell) :
  applyDelta e dt = Some e1 → applyDelta e1 dt = Some e1.
Proof.
  intros He. unfold applyDelta in *.
  destruct (applyCells_total (Cells dt) e1) as [e2 He2].
  { rewrite (applyCells_length _ _ _ He). by eapply applyCells_Some_in_grid. }
  rewrite He2. f_equal.
  destruct (applyCells_keeps _ _ _ He2) as (? & ? & ? & ? & ? & ? & ?).
  apply Env_eq; try done.
  - apply index_ext. intros i.
    destruct (applyCells_last _ _ _ i He) as [K1 _].
    destruct (applyCells_last _ _ _ i He2) as [K2 _].
    rewrite K2, K1. by destruct (last_at i (Cells dt)).
  - apply map_eq. intros i.
    destruct (applyCells_last _ _ _ i He) as [_ K1].
    destruct (applyCells_last _ _ _ i He2) as [_ K2].
    rewrite K2, K1. by destruct (last_at i (Cells dt)).
Qed.

(** X5. Two Deltas that share no index can be applied in either order: both
    orders fault together, and otherwise give the same environment. *)
Theorem applyDelta_commute (e : Env Cell) (dt1 dt2 : Delta Cell) :
  disjoint_cells (Cells dt1) (Cells dt2) →
  (e' ← applyDelta e dt1; applyDelta e' dt2) =
  (e' ← applyDelta e dt2; applyDelta e' dt1).
Proof.
  intros Hdis. unfold applyDelta.
  destruct (applyCells (Cells dt1) e) as [e1|] eqn:H1;
    destruct (applyCells (Cells dt2) e) as [e2|] eqn:H2; simpl.
  - destruct (applyCells_total (Cells dt2) e1) as [e12 H12].
    { rewrite (applyCells_length _ _ _ H1). by eapply applyCells_Some_in_grid. }
    destruct (applyCells_total (Cells dt1) e2) as [e21 H21].
    { rewrite (applyCells_length _ _ _ H2). by eapply applyCells_Some_in_grid. }
    rewrite H12, H21. f_equal.
    destruct (applyCells_keeps _ _ _ H1) as (? & ? & ? & ? & ? & ? & ?).
    destruct (applyCells_keeps _ _ _ H2) as (? & ? & ? & ? & ? & ? & ?).
    destruct (applyCells_keeps _ _ _ H12) as (? & ? & ? & ? & ? & ? & ?).
    destruct (applyCells_keeps _ _ _ H21) as (? & ? & ? & ? & ? & ? & ?).
    assert (∀ i c1 c2, last_at i (Cells dt1) = Some c1 →
                       last_at i (Cells dt2) = Some c2 → False) as Hno.
    { intros i c1 c2 [Hc1 Hi1]%last_at_Some [Hc2 Hi2]%last_at_Some.
      apply (Hdis c1 c2 Hc1 Hc2). congruence. }
    apply Env_eq; try congruence.
    + apply index_ext. intros i.
      destruct (applyCells_last _ _ _ i H1) as [Ha _].
      destruct (applyCells_last _ _ _ i H2) as [Hb _].
      destruct (applyCells_last _ _ _ i H12) as [Hc _].
      destruct (applyCells_last _ _ _ i H21) as [Hd _].
      rewrite Hc, Hd, Ha, Hb.
      destruct (last_at i (Cells dt1)) as [c1|] eqn:E1;
        destruct (last_at i (Cells dt2)) as [c2|] eqn:E2; try done.
      destruct (Hno i c1 c2 E1 E2).
    + apply map_eq. intros i.
      destruct (applyCells_last _ _ _ i H1) as [_ Ha].
      destruct (applyCells_last _ _ _ i H2) as [_ Hb].
      destruct (applyCells_last _ _ _ i H12) as [_ Hc].
      destruct (applyCells_last _ _ _ i H21) as [_ Hd].
      rewrite Hc, Hd, Ha, Hb.
      destruct (last_at i (Cells dt1)) as [c1|] eqn:E1;
        destruct (last_at i (Cells dt2)) as [c2|] eqn:E2; try done.
      destruct (Hno i c1 c2 E1 E2).
  - destruct (applyCells (Cells dt2) e1) as [e12|] eqn:H12; [|done].
    apply applyCells_Some_in_grid in H12.
    rewrite (applyCells_length _ _ _ H1) in H12.
    destruct (applyCells_total _ _ H12) as [? ?]. congruence.
  - destruct (applyCells (Cells dt1) e2) as [e21|] eqn:H21; [|done].
    apply applyCells_Some_in_grid in H21.
    rewrite (applyCells_length _ _ _ H2) in H21.
    destruct (applyCells_total _ _ H21) as [? ?]. congruence.
  - done.
Qed.

End StoreAlgebra.

(** ** The grid: construction, layout, walks *)

Section GridShape.
Context {Cell : Type} `{CellOps Cell}.

Lemma rem_quot_row (w x y : Z) :
  0 ≤ x < w → 0 ≤ y →
  Z.rem (x + w * y) w = x ∧ Z.quot (x + w * y) w = y.
Proof.
  intros Hx Hy. assert (0 ≤ x + w * y) by nia.
  rewrite Z.rem_mod_nonneg, Z.quot_div_nonneg by lia.
  rewrite (Z.mul_comm w y). split.
  - rewrite Z_mod_plus_full. apply Z.mod_small. lia.
  - rewrite Z_div_plus_full by lia. rewrite Z.div_small by lia. lia.
Qed.

(** X6. [NewEnv] faults exactly when the [int32] product of width and
    height is negative. For a positive width and height whose product fits
    [int32] it lays the cells out row by row: [GetCell] at in-grid
    coordinates returns a copy of the cell constructed for these
    coordinates, with index [x + width * y], and every stored cell is the
    one constructed for the in-grid coordinates of its slot. *)
Theorem NewEnv_layout (now width height genomeSize pop seed : Z) :
  (NewEnv (Cell := Cell) now width height genomeSize pop seed = None ↔
     wrap32 (width * height) < 0) ∧
  (0 < width → 0 < height → width * height < 2 ^ 31 →
   ∃ e, NewEnv now width height genomeSize pop seed = Some e ∧
     (∀ x y, 0 ≤ x < width → 0 ≤ y < height →
        GetCell e x y = Some (clone (newCell (x + width * y) x y genomeSize))) ∧
     (∀ (i : nat) c, cells e !! i = Some c →
        ∃ x y, 0 ≤ x < width ∧ 0 ≤ y < height ∧
               Z.of_nat i = x + width * y ∧
               c = newCell (Z.of_nat i) x y genomeSize)).
Proof.
  split.
  - unfold NewEnv. case_decide; split; try done; lia.
  - intros Hw Hh Hsmall.
    assert (wrap32 (width * height) = width * height) as Hn
      by (apply wrap32_id; unfold int32_range; nia).
    unfold NewEnv. rewrite Hn, decide_True by nia.
    eexists. split; [reflexivity|]. split.
    + intros x y Hx Hy. unfold GetCell. simpl.
      assert (0 ≤ width * y ∧ x + width * y < width * height) as [Hlo Hhi] by nia.
      rewrite (wrap32_id (width * y)) by (unfold int32_range; lia).
      rewrite wrap32_id by (unfold int32_range; lia).
      unfold index. rewrite decide_True by lia.
      rewrite list_lookup_fmap, lookup_seqZ_lt by lia. simpl.
      rewrite Z2Nat.id, Z.add_0_l by lia.
      destruct (rem_quot_row width x y Hx) as [-> ->]; [lia|]. done.
    + simpl. intros i c Hc. rewrite list_lookup_fmap in Hc.
      destruct (seqZ 0 _ !! i) as [k|] eqn:Hk; simpl in Hc; [|discriminate].
      injection Hc as <-. apply lookup_seqZ in Hk as [-> Hi].
      rewrite Z.add_0_l.
      exists (Z.of_nat i `mod` width), (Z.of_nat i `div` width).
      pose proof (Z.mod_pos_bound (Z.of_nat i) width Hw).
      pose proof (Z.div_mod (Z.of_nat i) width ltac:(lia)).
      assert (0 ≤ Z.of_nat i `div` width) by (apply Z.div_pos; lia).
      assert (Z.of_nat i `div` width < height).
      { apply Z.div_lt_upper_bound; lia. }
      repeat split; try lia.
      rewrite Z.rem_mod_nonneg, Z.quot_div_nonneg by lia. done.
Qed.

(** X7. The grid is allocated once: every environment reached from
    [NewEnv] by [applyDelta] has the dimensions, genome size, seed, initial
    population and configuration it was constructed with, holds
    [width * height] cells (in [int32]) and a scratch buffer of that length,
    every stored cell carries the index of its slot, and the membership
    invariant holds. *)
Theorem Store_shape `{!CellLaws Cell} (now width height genomeSize pop seed : Z)
    (e : Env Cell) :
  Store now width height genomeSize pop seed e →
  store_wf e ∧
  Z.of_nat (length (cells e)) = wrap32 (width * height) ∧
  Width e = width ∧ Height e = height ∧ GenomeSize e = genomeSize ∧
  initPop e = pop ∧ config e = defaultConfig ∧
  Seed e = (if decide (seed < 1) then now else seed).
Proof.
  intros Hst. split; [by eapply Store_store_wf|].
  induction Hst as [e He|e dt e' _ IH He].
  - revert He. unfold NewEnv. case_decide; [|discriminate]. intros [= <-]. simpl.
    rewrite length_fmap, length_seqZ. repeat split. lia.
  - destruct IH as (Hlen & <- & <- & <- & <- & <- & <-).
    unfold applyDelta in He.
    destruct (applyCells_keeps _ _ _ He) as (-> & -> & -> & -> & -> & -> & _).
    by rewrite (applyCells_length _ _ _ He).
Qed.

(** X8. On a well-formed grid of [Width * Height] cells [GetCell] at in-grid
    coordinates returns a copy of the stored cell whose index is
    [x + Width * y], and two different in-grid coordinate pairs never read
    the same slot. *)
Theorem GetCell_linear (e : Env Cell) (x y : Z) :
  store_wf e →
  Z.of_nat (length (cells e)) = Width e * Height e →
  Width e * Height e < 2 ^ 31 →
  0 ≤ x < Width e → 0 ≤ y < Height e →
  (∃ c, index (cells e) (x + Width e * y) = Some c ∧ idx c = x + Width e * y ∧
        GetCell e x y = Some (clone c)) ∧
  (∀ x' y', 0 ≤ x' < Width e → 0 ≤ y' < Height e →
            x' + Width e * y' = x + Width e * y → x' = x ∧ y' = y).
Proof.
  intros (_ & Hidx & _) Hlen Hsmall Hx Hy. split.
  - destruct (GetCell_in_grid e x y Hlen Hsmall Hx Hy) as (c & Hc & Hg).
    exists c. split; [|split; [|exact Hg]].
    + apply index_Some. split; [nia|exact Hc].
    + rewrite (Hidx _ _ Hc). rewrite Z2Nat.id; nia.
  - intros x' y' Hx' Hy' Heq.
    destruct (rem_quot_row (Width e) x y Hx) as [Hr Hq]; [lia|].
    destruct (rem_quot_row (Width e) x' y' Hx') as [Hr' Hq']; [lia|].
    rewrite Heq in Hr', Hq'. split; congruence.
Qed.

(** X9. On a grid of width and height at least one, a step to a neighbour
    followed by a step in the opposite direction comes back to the
    coordinates it started from, and a direction outside the four constants
    does not move. *)
Theorem neighbor_opposite (e : Env Cell) (x y : Z) :
  1 ≤ Width e < 2 ^ 31 → 1 ≤ Height e < 2 ^ 31 →
  0 ≤ x < Width e → 0 ≤ y < Height e →
  (let '(x1, y1) := neighbor e x y DIR_LEFT in neighbor e x1 y1 DIR_RIGHT) = (x, y) ∧
  (let '(x1, y1) := neighbor e x y DIR_RIGHT in neighbor e x1 y1 DIR_LEFT) = (x, y) ∧
  (let '(x1, y1) := neighbor e x y DIR_UP in neighbor e x1 y1 DIR_DOWN) = (x, y) ∧
  (let '(x1, y1) := neighbor e x y DIR_DOWN in neighbor e x1 y1 DIR_UP) = (x, y) ∧
  (∀ dir, dir ∉ [DIR_LEFT; DIR_RIGHT; DIR_UP; DIR_DOWN] →
          neighbor e x y dir = (x, y)).
Proof.
  intros HW HH Hx Hy.
  assert (∀ z, -1 ≤ z ≤ 2 ^ 31 - 1 → wrap32 z = z) as Hwrap
    by (intros z Hz; apply wrap32_id; unfold int32_range; lia).
  unfold neighbor, DIR_LEFT, DIR_RIGHT, DIR_UP, DIR_DOWN. simpl.
  rewrite !(Hwrap (Width e - 1)), !(Hwrap (Height e - 1)) by lia.
  rewrite !(Hwrap (x - 1)), !(Hwrap (y - 1)) by lia.
  rewrite !(Hwrap (x + 1)), !(Hwrap (y + 1)) by lia.
  repeat split.
  - repeat case_decide; rewrite ?Hwrap by lia; f_equal; lia.
  - repeat case_decide; rewrite ?Hwrap by lia; f_equal; lia.
  - repeat case_decide; rewrite ?Hwrap by lia; f_equal; lia.
  - repeat case_decide; rewrite ?Hwrap by lia; f_equal; lia.
  - intros dir Hdir.
    repeat (case_decide; [subst dir; destruct Hdir; repeat constructor|]).
    done.
Qed.

Lemma neighbor_step (e : Env Cell) (x y : Z) :
  1 ≤ Width e < 2 ^ 31 → 1 ≤ Height e < 2 ^ 31 →
  0 ≤ x < Width e → 0 ≤ y < Height e →
  neighbor e x y DIR_LEFT = ((x - 1) `mod` Width e, y) ∧
  neighbor e x y DIR_RIGHT = ((x + 1) `mod` Width e, y) ∧
  neighbor e x y DIR_UP = (x, (y - 1) `mod` Height e) ∧
  neighbor e x y DIR_DOWN = (x, (y + 1) `mod` Height e).
Proof.
  intros HW HH Hx Hy.
  assert (∀ z, -1 ≤ z ≤ 2 ^ 31 - 1 → wrap32 z = z) as Hwrap
    by (intros z Hz; apply wrap32_id; unfold int32_range; lia).
  assert (∀ m, 1 ≤ m → (-1) `mod` m = m - 1) as Hneg.
  { intros m Hm. symmetry. apply (Z.mod_unique (-1) m (-1)); lia. }
  assert (∀ m, 1 ≤ m → m `mod` m = 0) as Hfull
    by (intros m Hm; apply Z_mod_same_full).
  unfold neighbor, DIR_LEFT, DIR_RIGHT, DIR_UP, DIR_DOWN. simpl.
  rewrite !(Hwrap (Width e - 1)), !(Hwrap (Height e - 1)) by lia.
  rewrite !(Hwrap (x - 1)), !(Hwrap (y - 1)) by lia.
  rewrite !(Hwrap (x + 1)), !(Hwrap (y + 1)) by lia.
  repeat split; case_decide; f_equal; subst;
    rewrite ?Z.sub_0_l, ?Hneg, ?Z.sub_add, ?Hfull by lia;
    try reflexivity; rewrite Z.mod_small; lia.
Qed.

(** X10. The grid is a torus: [k] steps from in-grid coordinates move the
    coordinate by [k] modulo the width (left, right) or the height (up,
    down); in particular [Width] steps left or right and [Height] steps up
    or down come back to the start. *)
Theorem walk_torus (e : Env Cell) (k : nat) (x y : Z) :
  1 ≤ Width e < 2 ^ 31 → 1 ≤ Height e < 2 ^ 31 →
  0 ≤ x < Width e → 0 ≤ y < Height e →
  walk e DIR_LEFT k (x, y) = ((x - Z.of_nat k) `mod` Width e, y) ∧
  walk e DIR_RIGHT k (x, y) = ((x + Z.of_nat k) `mod` Width e, y) ∧
  walk e DIR_UP k (x, y) = (x, (y - Z.of_nat k) `mod` Height e) ∧
  walk e DIR_DOWN k (x, y) = (x, (y + Z.of_nat k) `mod` Height e) ∧
  walk e DIR_RIGHT (Z.to_nat (Width e)) (x, y) = (x, y) ∧
  walk e DIR_DOWN (Z.to_nat (Height e)) (x, y) = (x, y).
Proof.
  intros HW HH Hx Hy.
  assert (∀ k x y, 0 ≤ x < Width e → 0 ≤ y < Height e →
    walk e DIR_LEFT k (x, y) = ((x - Z.of_nat k) `mod` Width e, y) ∧
    walk e DIR_RIGHT k (x, y) = ((x + Z.of_nat k) `mod` Width e, y) ∧
    walk e DIR_UP k (x, y) = (x, (y - Z.of_nat k) `mod` Height e) ∧
    walk e DIR_DOWN k (x, y) = (x, (y + Z.of_nat k) `mod` Height e)) as Hwalk.
  { clear k x y Hx Hy. induction k as [|k IH]; intros x y Hx Hy.
    - simpl. rewrite !Z.sub_0_r, !Z.add_0_r, !Z.mod_small by lia. done.
    - destruct (neighbor_step e x y HW HH Hx Hy) as (Hl & Hr & Hu & Hd).
      cbn [walk fst snd]. rewrite Hl, Hr, Hu, Hd.
      pose proof (Z.mod_pos_bound (x - 1) (Width e) ltac:(lia)).
      pose proof (Z.mod_pos_bound (x + 1) (Width e) ltac:(lia)).
      pose proof (Z.mod_pos_bound (y - 1) (Height e) ltac:(lia)).
      pose proof (Z.mod_pos_bound (y + 1) (Height e) ltac:(lia)).
      destruct (IH ((x - 1) `mod` Width e) y) as (-> & _); [lia..|].
      destruct (IH ((x + 1) `mod` Width e) y) as (_ & -> & _); [lia..|].
      destruct (IH x ((y - 1) `mod` Height e)) as (_ & _ & -> & _); [lia..|].
      destruct (IH x ((y + 1) `mod` Height e)) as (_ & _ & _ & ->); [lia..|].
      rewrite Zminus_mod_idemp_l, !Zplus_mod_idemp_l, Zminus_mod_idemp_l.
      repeat split; do 2 f_equal; lia. }
  destruct (Hwalk k x y Hx Hy) as (Hl & Hr & Hu & Hd).
  destruct (Hwalk (Z.to_nat (Width e)) x y Hx Hy) as (_ & HrW & _).
  destruct (Hwalk (Z.to_nat (Height e)) x y Hx Hy) as (_ & _ & _ & HdH).
  repeat split; try done.
  - rewrite HrW, Z2Nat.id by lia.
    rewrite <- (Z.mul_1_l (Width e)) at 1. rewrite Z_mod_plus_full.
    by rewrite Z.mod_small.
  - rewrite HdH, Z2Nat.id by lia.
    rewrite <- (Z.mul_1_l (Height e)) at 1. rewrite Z_mod_plus_full.
    by rewrite Z.mod_small.
Qed.

End GridShape.

(** ** The samplers and the Advance case *)

Section SamplerExtras.
Context {Cell R : Type} `{CellOps Cell} `{RNG R} `{!VM Cell R}.

Lemma store_wf_same (e e' : Env Cell) :
  cells e' = cells e → liveCells e' = liveCells e →
  length (cellsBuf e') = length (cellsBuf e) →
  store_wf e → store_wf e'.
Proof.
  unfold store_wf, live_inv. intros -> -> ->. done.
Qed.

Lemma pick_buf (e : Env Cell) (r : R) order oc e' r' :
  pick e r (liveLoop (cellsBuf e) 0 order) = Some (oc, e', r') →
  ∃ buf, e' = set_cellsBuf e buf ∧ length buf = length (cellsBuf e) ∧
         (∀ k, (k < length order)%nat → buf !! k = order !! k) ∧
         (length order ≤ length (cellsBuf e))%nat ∧
         (oc = None → r' = r).
Proof.
  unfold pick.
  destruct (liveLoop (cellsBuf e) 0 order) as [[buf i]|] eqn:Hl; simpl; [|discriminate].
  apply liveLoop_Some in Hl as (-> & Hlen & Hget & _).
  assert (length order ≤ length (cellsBuf e))%nat as Hfit.
  { destruct (decide (length order ≤ length (cellsBuf e))%nat) as [|Hn]; [done|].
    exfalso. specialize (Hget (length (cellsBuf e)) ltac:(lia)). simpl in Hget.
    rewrite (lookup_ge_None_2 buf (length (cellsBuf e))) in Hget by lia.
    symmetry in Hget. apply lookup_ge_None_1 in Hget. lia. }
  case_decide.
  - intros [= <- <- <-]. exists buf. by repeat split.
  - destruct (Intn _ r) as [k r1].
    destruct (index buf k); simpl; [|discriminate].
    destruct (index (cells e) _); simpl; [|discriminate].
    intros [= <- <- <-]. exists buf. by repeat split.
Qed.



(** X12. On a grid of positive width and height that holds
    [Width * Height] cells, with a generator that draws below its bound,
    [getRandomCell] never faults: it draws [x] below the width, then [y]
    below the height, and returns a copy of the cell stored at
    [x + Width * y]. *)
Theorem getRandomCell_total `{!RNGLaws R} (e : Env Cell) (r : R) :
  0 < Width e → 0 < Height e →
  Z.of_nat (length (cells e)) = Width e * Height e →
  Width e * Height e < 2 ^ 31 →
  let x := (Int31n (Width e) r).1 in
  let r1 := (Int31n (Width e) r).2 in
  let y := (Int31n (Height e) r1).1 in
  let r2 := (Int31n (Height e) r1).2 in
  0 ≤ x < Width e ∧ 0 ≤ y < Height e ∧
  ∃ c, index (cells e) (x + Width e * y) = Some c ∧
       getRandomCell e r = Some (clone c, r2).
Proof.
  intros HW HH Hlen Hsmall x r1 y r2.
  pose proof (Int31n_range (Width e) r HW) as Hx.
  pose proof (Int31n_range (Height e) r1 HH) as Hy.
  fold x in Hx. fold y in Hy. split; [exact Hx|split; [exact Hy|]].
  destruct (GetCell_in_grid e x y Hlen Hsmall Hx Hy) as (c & Hc & Hg).
  exists c. split.
  - apply index_Some. split; [nia|exact Hc].
  - unfold getRandomCell.
    destruct (Int31n (Width e) r) as [x0 r10] eqn:E1.
    destruct (Int31n (Height e) r10) as [y0 r20] eqn:E2.
    subst x r1 y r2. simpl in *. rewrite E2 in *. simpl in *. by rewrite Hg.
Qed.

(** X13. On an Advance request with a non-empty membership set, on a
    well-formed store and with a generator that draws below its bound, the
    worker forwards the Delta of [exec] on a copy of a living member cell;
    it starts no goroutine and never drops the request. *)
Theorem process_exec_forward `{!RNGLaws R} (e : Env Cell) (r : R) (order : list Z) :
  store_wf e → range_order e order → liveCells e ≠ ∅ →
  ∃ k c buf r1,
    is_Some (liveCells e !! k) ∧ index (cells e) k = Some c ∧ live c = true ∧
    process_exec order e r =
      Some (Forward (exec (set_cellsBuf e buf) r1 (clone c)).1,
            set_cellsBuf e buf,
            (exec (set_cellsBuf e buf) r1 (clone c)).2).
Proof.
  intros Hwf Ho Hne.
  destruct (pick_some e r order) as (k & c & buf & r' & Hk & Hc & Hp).
  - intros Hnil. by apply (range_order_nil e order Ho) in Hnil.
  - destruct Hwf as (-> & _ & Hinv).
    apply (keys_fit (liveCells e)); [exact Ho|].
    intros k [c [Hc _]]%Hinv. apply index_is_Some. by eexists.
  - intros k Hk%(range_order_elem e order k Ho).
    destruct Hwf as (_ & _ & Hinv).
    apply Hinv in Hk as (c & -> & _). by eexists.
  - apply (range_order_elem e order k Ho) in Hk.
    exists k, c, buf, r'. repeat split; [exact Hk|exact Hc| |].
    + destruct Hwf as (_ & _ & Hinv).
      pose proof Hk as (c' & Hc' & Hl)%Hinv. congruence.
    + unfold process_exec, getRandomLiveCell. rewrite Hp. simpl.
      by destruct (exec (set_cellsBuf e buf) r' (clone c)).
Qed.

End SamplerExtras.

(** ** Cell identifiers *)

Lemma fetch_ids_from (n : nat) (id : Z) :
  - 2 ^ 63 ≤ id → id + Z.of_nat n < 2 ^ 63 →
  fetch_ids n id = (seqZ id (Z.of_nat n), id + Z.of_nat n).
Proof.
  revert id. induction n as [|n IH]; intros id Hlo Hhi.
  - simpl. by rewrite Z.add_0_r.
  - cbn [fetch_ids getNextCellID].
    assert (wrap64 (id + 1) = id + 1) as ->.
    { unfold wrap64, wrap. rewrite Z.mod_small; lia. }
    rewrite IH by lia.
    rewrite Nat2Z.inj_succ, (seqZ_cons id) by lia.
    f_equal; [|lia]. f_equal. f_equal; lia.
Qed.

(** X14. The identifiers handed out start at 1 and count up: the first [n]
    calls of [getNextCellID] return 1, ..., [n], pairwise different and in
    increasing order, as long as [n] is below [2^63 - 1]; the call after
    the identifier [2^63 - 1] is handed out finds the counter wrapped to
    [-2^63]. *)
Theorem fetch_ids_count (n : nat) :
  Z.of_nat n < 2 ^ 63 - 1 →
  fetch_ids n first_id = (seqZ 1 (Z.of_nat n), 1 + Z.of_nat n) ∧
  NoDup (fetch_ids n first_id).1 ∧
  (∀ (i j : nat) a b,
     (fetch_ids n first_id).1 !! i = Some a →
     (fetch_ids n first_id).1 !! j = Some b →
     (i < j)%nat → 1 ≤ a < b) ∧
  getNextCellID (2 ^ 63 - 1) = (2 ^ 63 - 1, - 2 ^ 63).
Proof.
  intros Hn. unfold first_id.
  rewrite (fetch_ids_from n 1) by lia. simpl fst.
  split; [done|split; [apply NoDup_seqZ|split]].
  - intros i j a b [-> _]%lookup_seqZ [-> _]%lookup_seqZ Hij. lia.
  - reflexivity.
Qed.

(** ** The run: store, panics, seeding, requests *)

(** Tactics for the contradictions between a step and the order of the
    closes. *)

Ltac split_pc s Hinv :=
  try match type of Hinv with context [pc s] => destruct (pc s) end.

Ltac absurd_closed :=
  repeat match goal with
    | Hi : _ ∧ _ |- _ => destruct Hi
    | Hi : _ ∨ _ |- _ => destruct Hi
    end;
  try done_worker;
  repeat match goal with
    | Hc : closed _ = _ |- _ => rewrite Hc in *; clear Hc
    | Hc : defers _ = _ |- _ => rewrite Hc in *; clear Hc
    end;
  simplify_eq;
  repeat match goal with
    | Hin : _ ∈ _ :: _ |- _ =>
        apply elem_of_cons in Hin as [Hin|Hin]; try discriminate
    | Hin : _ ∈ [] |- _ => by apply elem_of_nil in Hin
    end.

Section RunExtras.
Context {Cell R : Type} `{CellOps Cell} `{RNG R} `{!VM Cell R}.

Lemma set_cellsBuf_id (e : Env Cell) : set_cellsBuf e (cellsBuf e) = e.
Proof. by destruct e. Qed.

Lemma process_inflow_buf (e : Env Cell) (r : R) o e' r' :
  process_inflow e r = Some (o, e', r') →
  e' = set_cellsBuf e (cellsBuf e') ∧
  length (cellsBuf e') = length (cellsBuf e) ∧
  o ≠ Redirect ∧
  (o = Dropped → ∀ c, c ∈ cells e → is_Some (liveCells e !! idx c)).
Proof.
  unfold process_inflow. destruct (negb _).
  - destruct (getRandomDeadCell e r) as [[[oc e1] r1]|] eqn:Hg; simpl; [|discriminate].
    pose proof Hg as Hnil.
    unfold getRandomDeadCell in Hg. rewrite deadLoop_liveLoop in Hg.
    apply pick_buf in Hg as (buf & -> & Hlen & _).
    destruct oc as [c|].
    + destruct (seed _ r1 c). intros [= <- <- <-]. simpl. by repeat split.
    + intros [= <- <- <-]. simpl. repeat split; [done|done|].
      intros _. apply dead_nil_iff.
      apply (pick_none_iff e r). unfold getRandomDeadCell in Hnil.
      rewrite deadLoop_liveLoop in Hnil. by eexists _, _.
  - destruct (getRandomCell e r) as [[c r1]|]; simpl; [|discriminate].
    destruct (seed e r1 c). intros [= <- <- <-].
    rewrite set_cellsBuf_id. by repeat split.
Qed.

Lemma process_exec_buf order (e : Env Cell) (r : R) o e' r' :
  process_exec order e r = Some (o, e', r') →
  e' = set_cellsBuf e (cellsBuf e') ∧
  length (cellsBuf e') = length (cellsBuf e).
Proof.
  unfold process_exec.
  destruct (getRandomLiveCell order e r) as [[[oc e1] r1]|] eqn:Hg;
    simpl; [|discriminate].
  apply pick_buf in Hg as (buf & -> & Hlen & _).
  destruct oc as [c|]; [destruct (exec _ r1 c)|]; intros [= <- <- <-]; by split.
Qed.

(** What a step can do to the environment. *)
Lemma step_env l (s s' : Sys Cell R) :
  step l s = Some s' →
  (cells (env s') = cells (env s) ∧ liveCells (env s') = liveCells (env s) ∧
   length (cellsBuf (env s')) = length (cellsBuf (env s)) ∧
   Width (env s') = Width (env s) ∧ Height (env s') = Height (env s)) ∨
  (l = LRecvDelta ∧ ∃ dt, applyDelta (env s) dt = Some (env s')).
Proof.
  intros Hs. destruct l; step_cases Hs;
    repeat match goal with
      | Hp : process_inflow _ _ = Some _ |- _ =>
          apply process_inflow_buf in Hp as (Hp & ? & _); rewrite Hp
      | Hp : process_exec _ _ _ = Some _ |- _ =>
          apply process_exec_buf in Hp as (Hp & ?); rewrite Hp
      end; simpl; auto 10.
  right. split; [done|]. by eexists.
Qed.

(** X15. The store of a run stays well-formed: if [Run] starts on a
    well-formed environment, then in every state of the run the membership
    set is the set of indices of living stored cells, every stored cell
    carries the index of its slot, and the grid and the scratch buffer have
    the length and the dimensions they started with. *)
Theorem running_store_wf `{!CellLaws Cell} (e : Env Cell) (processN : Z)
    (s : Sys Cell R) :
  store_wf e → Reachable e processN s →
  store_wf (env s) ∧
  length (cells (env s)) = length (cells e) ∧
  length (cellsBuf (env s)) = length (cellsBuf e) ∧
  Width (env s) = Width e ∧ Height (env s) = Height e.
Proof.
  intros Hwf. revert s. apply Reachable_inv.
  - intros s0 (_ & -> & _)%Run_Some. done.
  - intros l s s' Hs (Hs_wf & <- & <- & <- & <-).
    destruct (step_env l s s' Hs) as [(Hc & Hl & Hb & HW & HH)|(_ & dt & Hd)].
    + split; [by apply (store_wf_same (env s))|]. by rewrite Hc, Hb, HW, HH.
    + split; [by eapply applyDelta_store_wf|].
      unfold applyDelta in Hd.
      destruct (applyCells_keeps _ _ _ Hd) as (-> & -> & _ & _ & _ & _ & ->).
      by rewrite (applyCells_length _ _ _ Hd).
Qed.



(** *** Seeding *)

Lemma step_to_seed l (s s' : Sys Cell R) :
  step l s = Some s' → pc s' = CSeed →
  pc s = CSeed ∧ applied s' = applied s ∧ output s' = output s.
Proof.
  intros Hs Hpc. destruct l; step_cases Hs; try done; try congruence.
Qed.

(** X17. While [Run] is seeding it applies nothing and delivers nothing:
    the Deltas of the initial population are in the buffer of [dts] or with
    the workers, and the store is the one [Run] was handed. [Run] enters its
    loop in that state. *)
Theorem seeding_applies_nothing (e : Env Cell) (processN : Z) (s : Sys Cell R) :
  Reachable e processN s →
  (pc s = CSeed →
     applied s = [] ∧ output s = [] ∧ sent s = dts s ∧
     cells (env s) = cells e ∧ liveCells (env s) = liveCells e) ∧
  (∀ s', step LEnterLoop s = Some s' →
     pc s' = CSelect ∧ applied s' = [] ∧ output s' = [] ∧
     cells (env s') = cells e ∧ liveCells (env s') = liveCells e).
Proof.
  intros Hr.
  assert (flow_inv e s ∧ (pc s = CSeed → applied s = [] ∧ output s = []))
    as [(Hsent & _ & e' & Hrep & Hcells & Hlive) Hseed].
  { revert s Hr. apply Reachable_inv.
    - intros s0 Hs0. split; [by eapply Run_flow_inv|].
      apply Run_Some in Hs0 as (_ & _ & _ & _ & _ & _ & _ & _ & _ & _ & _ & _ & -> & ->).
      done.
    - intros l s s' Hs [Hflow Hseed]. split; [by eapply step_flow_inv|].
      intros Hpc. destruct (step_to_seed l s s' Hs Hpc) as (Hpc0 & -> & ->).
      by apply Hseed. }
  assert (pc s = CSeed →
     applied s = [] ∧ output s = [] ∧ sent s = dts s ∧
     cells (env s) = cells e ∧ liveCells (env s) = liveCells e) as Hfirst.
  { intros Hpc. destruct (Hseed Hpc) as [Ha Ho].
    rewrite Ha in Hrep, Hsent. simpl in Hrep, Hsent. injection Hrep as <-.
    by repeat split. }
  split; [exact Hfirst|].
  intros s' Hs. unfold step in Hs.
  destruct (panicked s); [discriminate|].
  destruct (pc s) eqn:Hpc; try discriminate.
  case_decide; [discriminate|]. injection Hs as <-. simpl.
  destruct (Hfirst eq_refl) as (-> & -> & _ & -> & ->). done.
Qed.

Lemma busy_insert (ws : list (Worker Cell * R)) j w r w' r' :
  ws !! j = Some (w, r) →
  (busy (<[j := (w', r')]> ws) + (if is_busy w then 1 else 0) =
   busy ws + (if is_busy w' then 1 else 0))%nat.
Proof.
  unfold busy. revert j. induction ws as [|[w0 r0] ws IH]; intros j Hj; [done|].
  destruct j as [|j]; simpl in Hj.
  - injection Hj as -> ->. simpl. rewrite !filter_cons. simpl.
    destruct (is_busy w), (is_busy w'); repeat case_decide; simpl; try done; lia.
  - simpl. rewrite !filter_cons. specialize (IH j Hj).
    case_decide; simpl; lia.
Qed.

Lemma busy_le (ws : list (Worker Cell * R)) : (busy ws ≤ length ws)%nat.
Proof. apply length_filter. Qed.

Lemma busy_replicate n (r : R) :
  busy (replicate n ((WSelect, r) : Worker Cell * R)) = 0%nat.
Proof.
  unfold busy. induction n as [|n IH]; [done|]. simpl.
  rewrite filter_cons_False; [exact IH|]. simpl. discriminate.
Qed.

End RunExtras.

(** *** Requests and Deltas *)

Ltac busy_step s :=
  try match goal with
    | Hw : workers s !! ?j = Some (?w, ?r)
      |- context [busy (<[?j := (?w', ?r')]> (workers s))] =>
        let Hb := fresh "Hbusy" in
        pose proof (busy_insert (workers s) j w r w' r' Hw) as Hb;
        simpl in Hb
    end;
  rewrite ?length_app; simpl.

Ltac no_exec s Hex :=
  match goal with
  | Hw : workers s !! _ = Some (WExec, _) |- _ =>
      exfalso; apply (Forall_lookup_1 _ _ _ _ Hex Hw); reflexivity
  end.

Section Requests.
Context {Cell R : Type} `{CellOps Cell} `{RNG R} `{!VM Cell R}.

Lemma step_bound l (s s' : Sys Cell R) :
  order_inv s → step l s = Some s' →
  (length (sent s) + busy (workers s) + redirects s ≤ length (issued s))%nat →
  (length (sent s') + busy (workers s') + redirects s' ≤ length (issued s'))%nat.
Proof.
  intros Hinv Hs Hb.
  destruct l; step_cases Hs; closed_facts; busy_step s; try lia.
  all: use_pc s; split_pc s Hinv; absurd_closed.
Qed.

(** X18. Every Delta comes from a request of [Run]: in every state of a run
    the Deltas sent on [dts], the workers that hold a request or a Delta not
    yet sent, and the goroutines of starved workers standing at their send
    together number at most the requests [Run] has handed over. A request
    yields at most one Delta, also when a starved Advance request is turned
    into an Introduce request. *)
Theorem requests_bound (e : Env Cell) (processN : Z) (s : Sys Cell R) :
  Reachable e processN s →
  (length (sent s) + busy (workers s) + redirects s ≤ length (issued s))%nat.
Proof.
  intros Hr.
  assert (order_inv s ∧
          (length (sent s) + busy (workers s) + redirects s ≤ length (issued s))%nat)
    as [_ Hb]; [|exact Hb].
  revert s Hr. apply Reachable_inv.
  - intros s0 Hs0. split; [by eapply Run_order_inv|].
    apply Run_Some in Hs0
      as (_ & _ & _ & _ & -> & -> & _ & _ & _ & _ & -> & -> & _).
    rewrite busy_replicate. simpl. lia.
  - intros l s s' Hs [Hinv Hb]. split; [by eapply step_order_inv|].
    by eapply step_bound.
Qed.

Lemma seeding_step e0 processN l (s s' : Sys Cell R) :
  (∃ c, c ∈ cells e0 ∧ liveCells e0 !! idx c = None) →
  int32_range (initPop e0) → 0 ≤ processN → 2 * processN < initPop e0 →
  step l s = Some s' → seeding e0 processN s → seeding e0 processN s'.
Proof.
  intros (c0 & Hc0 & Hdead) Hrange Hn Hpop Hs
    (Hpc & Hcells & Hlive & Happ & Hout & Hred & Hcl & Hex & Hiss & Hcap & Hdc & Hws & Hip).
  pose proof (busy_le (workers s)) as Hble.
  assert (0 < initPop (env s)) as Hpos by lia.
  unfold seeding.
  destruct l; step_cases Hs; closed_facts; try congruence; try lia.
  all: repeat match goal with
         | Hp : process_inflow _ _ = Some _ |- _ =>
             apply process_inflow_buf in Hp as (Hp & ? & ? & Hdrop); rewrite Hp
         | Hp : process_exec _ _ _ = Some _ |- _ =>
             apply process_exec_buf in Hp as (Hp & ?); rewrite Hp
         end; simpl.
  all: try (exfalso; congruence).
  all: try solve [exfalso; destruct (Hdrop eq_refl c0) as [b Hb];
            [by rewrite Hcells|rewrite Hlive, Hdead in Hb; discriminate]].
  all: try no_exec s Hex.
  all: try solve [exfalso; destruct Hcl as [Hcl|Hcl]; rewrite Hcl in *;
            repeat match goal with
              | Hin : _ ∈ _ :: _ |- _ =>
                  apply elem_of_cons in Hin as [Hin|Hin]; try discriminate
              | Hin : _ ∈ [] |- _ => by apply elem_of_nil in Hin
              end].
  all: busy_step s.
  all: rewrite ?length_insert, ?wrap32_id by (unfold int32_range in *; lia).
  all: repeat split; try done; try lia;
       try (apply Forall_insert; [done|simpl; discriminate]).
  destruct Hcl as [->|Hcl]; [by right|]. exfalso.
  match goal with Hno : ChRun ∉ closed s |- _ => apply Hno end.
  rewrite Hcl. left.
Qed.

(** X19. The seeding can block for good. On a store with a dead cell no
    Introduce request is dropped, so each one handed over during the seeding
    is held by a worker or has become a Delta in the buffer of [dts], which
    the seeding loop never reads. With an initial population above twice
    the number of workers, [Run] therefore never leaves its seeding loop: in
    every state of the run it still stands there with population left to
    introduce, at most [2 * processN] requests handed over, and nothing
    applied or delivered. *)
Theorem seeding_blocks (e : Env Cell) (processN : Z) (s : Sys Cell R) :
  (∃ c, c ∈ cells e ∧ liveCells e !! idx c = None) →
  int32_range (initPop e) → 2 * processN < initPop e →
  Reachable e processN s →
  pc s = CSeed ∧ 0 < initPop (env s) ∧
  Z.of_nat (length (issued s)) ≤ 2 * processN ∧
  applied s = [] ∧ output s = [] ∧
  step LEnterLoop s = None.
Proof.
  intros Hdead Hrange Hpop Hr.
  assert (0 ≤ processN) as Hn.
  { destruct Hr as (s0 & _ & Hs0 & _). by apply Run_Some in Hs0 as (Hn & _). }
  assert (seeding e processN s)
    as (Hpc & _ & _ & Happ & Hout & _ & _ & _ & Hiss & Hcap & Hdc & Hws & Hip).
  { revert s Hr. apply Reachable_inv.
    - intros s0 (_ & E1 & E2 & _ & E3 & E4 & E5 & E6 & E7 & _ & E8 & _ & E9 & E10)%Run_Some.
      unfold seeding.
      rewrite E1, E2, E3, E4, E5, E6, E7, E8, E9, E10, busy_replicate, length_replicate.
      simpl. repeat split; try done; try lia; [by left|].
      apply Forall_replicate. discriminate.
    - intros l s s'. by apply seeding_step. }
  pose proof (busy_le (workers s)) as Hble.
  assert (Z.of_nat (length (issued s)) ≤ 2 * processN) as Hle by lia.
  repeat split; try done; try lia.
  unfold step. destruct (panicked s); [done|]. rewrite Hpc.
  rewrite decide_True by lia. done.
Qed.

End Requests.

(** ** The further properties on concrete grids *)

Lemma applyDelta_read_back_witness :
  ∃ e', applyDelta (Model.grid 2 2 0) (born 1 (Model.grid 2 2 0)) = Some e' ∧
        is_Some (liveCells e' !! 1).
Proof.
  assert (∃ e', applyDelta (Model.grid 2 2 0) (born 1 (Model.grid 2 2 0)) = Some e')
    as [e' He].
  { eexists. vm_compute. reflexivity. }
  exists e'. split; [exact He|].
  destruct (applyDelta_read_back (Model.grid 2 2 0) e' (born 1 (Model.grid 2 2 0))
              [] (Model.birth (newCell 1 1 0 8)) [] He) as (_ & Hiff & _).
  - reflexivity.
  - intros c Hc. by apply elem_of_nil in Hc.
  - apply Hiff. reflexivity.
Defined.

Lemma applyDelta_idempotent_witness :
  ∃ e1, applyDelta (Model.grid 2 2 0) (born 1 (Model.grid 2 2 0)) = Some e1 ∧
        applyDelta e1 (born 1 (Model.grid 2 2 0)) = Some e1.
Proof.
  eexists. split; [vm_compute; reflexivity|].
  apply (applyDelta_idempotent (Model.grid 2 2 0)).
  vm_compute. reflexivity.
Defined.

Lemma applyDelta_commute_witness :
  (e' ← applyDelta (Model.grid 2 2 0) (born 0 (Model.grid 2 2 0));
   applyDelta e' (born 1 (Model.grid 2 2 0))) =
  (e' ← applyDelta (Model.grid 2 2 0) (born 1 (Model.grid 2 2 0));
   applyDelta e' (born 0 (Model.grid 2 2 0))).
Proof.
  apply applyDelta_commute.
  intros c1 c2 Hc1 Hc2.
  apply (list_elem_of_singleton c1) in Hc1.
  apply (list_elem_of_singleton c2) in Hc2.
  subst c1 c2. vm_compute. discriminate.
Defined.

Lemma Store_shape_witness :
  length (cells (Model.grid 2 2 0)) = 4%nat ∧ store_wf (Model.grid 2 2 0).
Proof.
  destruct (Store_shape (Cell := Model.cell) 1 2 2 8 0 1 (Model.grid 2 2 0))
    as (Hwf & Hlen & _).
  - apply Store_new. reflexivity.
  - split; [|exact Hwf].
    change (wrap32 (2 * 2)) with 4 in Hlen. lia.
Defined.

Lemma GetCell_linear_witness :
  ∃ c, index (cells (Model.grid 4 4 0)) 9 = Some c ∧ idx c = 9 ∧
       GetCell (Model.grid 4 4 0) 1 2 = Some (clone c).
Proof.
  destruct (GetCell_linear (Model.grid 4 4 0) 1 2) as [Hc _].
  - apply grid_store_wf. vm_compute. discriminate.
  - reflexivity.
  - reflexivity.
  - split; [discriminate|reflexivity].
  - split; [discriminate|reflexivity].
  - exact Hc.
Defined.

Lemma neighbor_opposite_witness :
  (let '(x1, y1) := neighbor (Model.grid 4 4 0) 0 2 DIR_LEFT in
   neighbor (Model.grid 4 4 0) x1 y1 DIR_RIGHT) = (0, 2).
Proof.
  apply (neighbor_opposite (Model.grid 4 4 0) 0 2).
  - split; [discriminate|reflexivity].
  - split; [discriminate|reflexivity].
  - split; [discriminate|reflexivity].
  - split; [discriminate|reflexivity].
Defined.

Lemma walk_torus_witness :
  walk (Model.grid 4 4 0) DIR_RIGHT 7 (3, 1) = ((3 + 7) `mod` 4, 1).
Proof.
  apply (walk_torus (Model.grid 4 4 0) 7 3 1).
  - split; [discriminate|reflexivity].
  - split; [discriminate|reflexivity].
  - split; [discriminate|reflexivity].
  - split; [discriminate|reflexivity].
Defined.

Lemma getRandomCell_total_witness :
  ∃ c r2, getRandomCell (Model.grid 2 2 0) 3 = Some (clone c, r2).
Proof.
  destruct (getRandomCell_total (Model.grid 2 2 0) 3) as (_ & _ & c & _ & Hg).
  - reflexivity.
  - reflexivity.
  - reflexivity.
  - reflexivity.
  - by eexists _, _.
Defined.

Lemma process_exec_forward_witness :
  ∃ e1 o e2 r2,
    applyDelta (Model.grid 2 2 0) (born 1 (Model.grid 2 2 0)) = Some e1 ∧
    process_exec [1] e1 0 = Some (Forward o, e2, r2).
Proof.
  assert (∃ e1, applyDelta (Model.grid 2 2 0) (born 1 (Model.grid 2 2 0)) = Some e1 ∧
                range_order e1 [1] ∧ liveCells e1 !! 1 = Some true)
    as (e1 & He1 & Ho & Hl).
  { eexists. split; [vm_compute; reflexivity|].
    split; [unfold range_order; vm_compute; reflexivity|vm_compute; reflexivity]. }
  destruct (process_exec_forward e1 0 [1]) as (k & c & buf & r1 & _ & _ & _ & Hp).
  - apply (applyDelta_store_wf (Model.grid 2 2 0) (born 1 (Model.grid 2 2 0)));
      [|exact He1].
    apply grid_store_wf. vm_compute. discriminate.
  - exact Ho.
  - intros Hempty. rewrite Hempty, lookup_empty in Hl. discriminate Hl.
  - exists e1. eexists _, _, _. split; [exact He1|exact Hp].
Defined.

Lemma fetch_ids_count_witness : fetch_ids 3 first_id = ([1; 2; 3], 4).
Proof.
  apply (fetch_ids_count 3). reflexivity.
Defined.

Lemma running_store_wf_witness :
  ∃ s, run_on (Model.grid 2 2 1) 1 stop_early = Some s ∧ store_wf (env s).
Proof.
  assert (∃ s, run_on (Model.grid 2 2 1) 1 stop_early = Some s) as (s & Hs).
  { eexists. vm_compute. reflexivity. }
  exists s. split; [exact Hs|].
  apply (running_store_wf (Model.grid 2 2 1) 1 s).
  - apply grid_store_wf. vm_compute. discriminate.
  - by apply run_on_Reachable in Hs.
Defined.


Lemma seeding_applies_nothing_witness :
  ∃ s, run_on (Model.grid 2 2 1) 1 [LSeed 0%nat; LIntroduce 0%nat; LSend 0%nat] = Some s ∧
       applied s = [] ∧ liveCells (env s) = liveCells (Model.grid 2 2 1) ∧
       length (dts s) = 1%nat.
Proof.
  assert (∃ s, run_on (Model.grid 2 2 1) 1 [LSeed 0%nat; LIntroduce 0%nat; LSend 0%nat] = Some s ∧
               pc s = CSeed ∧ length (dts s) = 1%nat) as (s & Hs & Hpc & Hd).
  { eexists. split; [vm_compute; reflexivity|]. split; vm_compute; reflexivity. }
  exists s. split; [exact Hs|].
  destruct (seeding_applies_nothing (Model.grid 2 2 1) 1 s
              (run_on_Reachable _ _ _ _ Hs)) as [Hseed _].
  destruct (Hseed Hpc) as (Ha & _ & _ & _ & Hl).
  split; [exact Ha|split; [exact Hl|exact Hd]].
Defined.

Lemma requests_bound_witness :
  ∃ s, run_on (Model.grid 2 2 1) 1 stop_early = Some s ∧
       (length (sent s) + busy (workers s) + redirects s ≤ length (issued s))%nat.
Proof.
  assert (∃ s, run_on (Model.grid 2 2 1) 1 stop_early = Some s) as (s & Hs).
  { eexists. vm_compute. reflexivity. }
  exists s. split; [exact Hs|].
  apply (requests_bound (Model.grid 2 2 1) 1 s). by apply run_on_Reachable in Hs.
Defined.

Lemma seeding_blocks_witness :
  ∃ s, run_on (Model.grid 2 2 3) 1
         [LSeed 0%nat; LIntroduce 0%nat; LSend 0%nat; LSeed 0%nat; LIntroduce 0%nat]
       = Some s ∧
       pc s = CSeed ∧ 0 < initPop (env s) ∧ step LEnterLoop s = None.
Proof.
  assert (∃ s, run_on (Model.grid 2 2 3) 1
         [LSeed 0%nat; LIntroduce 0%nat; LSend 0%nat; LSeed 0%nat; LIntroduce 0%nat]
       = Some s) as (s & Hs).
  { eexists. vm_compute. reflexivity. }
  exists s. split; [exact Hs|].
  destruct (seeding_blocks (Model.grid 2 2 3) 1 s) as (Hpc & Hpos & _ & _ & _ & Hno).
  - exists (newCell 0 0 0 8). split; [left|reflexivity].
  - split; [discriminate|reflexivity].
  - reflexivity.
  - by apply run_on_Reachable in Hs.
  - split; [exact Hpc|split; [exact Hpos|exact Hno]].
Defined.
